(** * DP Set-Union ([sdk/opendp/whitenoise/sql/dpsu.py]): a shallow embedding

    The module implements the differentially private set-union mechanism:
    [reservoir_sample] bounds a user's contribution, [policy_laplace] builds
    a weighted histogram with a per-user water-filling allocation, adds
    noise and keeps the items above a threshold, and [run_dpsu] joins the
    kept items back to the input table.

    Conventions of the embedding:
    - in the histogram work Python floats are modelled as exact rationals
      ([Q]); numeric statements are stated up to [Qeq].  The derivation of
      [rho] and [gamma] (module [Params]) is on binary64 floats, with the
      C library's [pow] and [log] as parameters;
    - Python exceptions are values of [exn], and fallible code lives in the
      error monad [result];
    - [dict] and [defaultdict] are insertion-ordered association lists with
      unique keys, as iteration order matters for the release loop and for
      the stable sort of the candidates;
    - the random sources ([random.randint], [laplace]) are read from
      explicit streams. *)

From Stdlib Require Import List ZArith QArith Lia Lqa Bool Permutation Sorted.
From Stdlib Require String.
From Stdlib Require Import Morphisms Setoid.
From Stdlib Require Import Reals Lra.
From Stdlib Require Import Floats.
Import ListNotations.
Import String.StringSyntax.
Delimit Scope string_scope with string.

Set Implicit Arguments.
Local Open Scope Q_scope.

(** ** Exceptions and the error monad *)

Inductive exn : Type :=
| ZeroDivisionError
| IndexError
| KeyError
| ValueError
| TypeError
| OverflowError.

Inductive result (A : Type) : Type :=
| Ok (a : A)
| Raise (e : exn).

Arguments Ok {A} a.
Arguments Raise {A} e.

Definition bind {A B : Type} (c : result A) (f : A -> result B) : result B :=
  match c with
  | Ok a => f a
  | Raise e => Raise e
  end.

Notation "x <- c ;; k" := (bind c (fun x => k))
  (at level 61, c at next level, right associativity).

(** ** Decidable equality on keys *)

Class EqDec (A : Type) : Type :=
  eq_dec : forall x y : A, {x = y} + {x <> y}.

#[export] Instance nat_EqDec : EqDec nat := Nat.eq_dec.
#[export] Instance Z_EqDec : EqDec Z := Z.eq_dec.
#[export] Instance string_EqDec : EqDec String.string := String.string_dec.

(** ** Python built-ins *)

(** [a < b] on floats. *)
Definition Qltb (a b : Q) : bool := negb (Qle_bool b a).

(** [range(a, b)]. *)
Definition py_range (a b : Z) : list Z :=
  map (fun n => (a + Z.of_nat n)%Z) (seq 0 (Z.to_nat (b - a))).

(** [l[j]] on a list: negative indices count from the end, and an index
    out of range raises [IndexError]. *)
Definition py_index {A : Type} (l : list A) (j : Z) : result A :=
  let n := Z.of_nat (length l) in
  let j' := if (j <? 0)%Z then (j + n)%Z else j in
  if ((j' <? 0) || (n <=? j'))%Z then Raise IndexError
  else match nth_error l (Z.to_nat j') with
       | Some x => Ok x
       | None => Raise IndexError
       end.

(** [a / k] with an integer divisor. *)
Definition py_div (a : Q) (k : Z) : result Q :=
  if (k =? 0)%Z then Raise ZeroDivisionError else Ok (a / inject_Z k).

(** ** Dictionaries *)

Section Dict.

Context {Item : Type} `{EqDec Item}.

(** An insertion-ordered dictionary from items to floats. *)
Definition dict : Type := list (Item * Q).

Definition keys (d : dict) : list Item := map fst d.

(** [d.get(i)]. *)
Fixpoint dict_find (d : dict) (i : Item) : option Q :=
  match d with
  | [] => None
  | (j, v) :: t => if eq_dec i j then Some v else dict_find t i
  end.

(** [d[i]] on a plain dict. *)
Definition dict_get (d : dict) (i : Item) : result Q :=
  match dict_find d i with
  | Some v => Ok v
  | None => Raise KeyError
  end.

(** [d[i] = v]: an existing key keeps its position, a new key goes last. *)
Fixpoint dict_set (d : dict) (i : Item) (v : Q) : dict :=
  match d with
  | [] => [(i, v)]
  | (j, w) :: t => if eq_dec i j then (j, v) :: t else (j, w) :: dict_set t i v
  end.

(** [histogram[i]] on a [defaultdict(float)]: a missing key is inserted
    with [0.0] by the read itself. *)
Definition hist_read (h : dict) (i : Item) : Q * dict :=
  match dict_find h i with
  | Some w => (w, h)
  | None => (0, dict_set h i 0)
  end.

(** [histogram[i] += d]. *)
Definition hist_add (h : dict) (i : Item) (d : Q) : dict :=
  let (w, h1) := hist_read h i in dict_set h1 i (w + d).

(** The weight of an item, [0] when the histogram has no entry for it. *)
Definition weight (h : dict) (i : Item) : Q :=
  match dict_find h i with
  | Some w => w
  | None => 0
  end.

(** The sum of all weights of a histogram. *)
Fixpoint hist_total (h : dict) : Q :=
  match h with
  | [] => 0
  | (_, w) :: t => w + hist_total t
  end.

(** ** The per-user allocation (lines 71-97 of [policy_laplace]) *)

(** Lines 71-74: the cost table of the candidates below [gamma]. *)
Definition cost_step (gamma : Q) (st : dict * dict) (item : Item)
  : dict * dict :=
  let (histogram, cost_dict) := st in
  let (w, histogram1) := hist_read histogram item in
  if Qltb w gamma then
    let (w', histogram2) := hist_read histogram1 item in
    (histogram2, dict_set cost_dict item (gamma - w'))
  else (histogram1, cost_dict).

Definition build_costs (gamma : Q) (items : list Item) (histogram : dict)
  : dict * dict :=
  fold_left (cost_step gamma) items (histogram, []).

(** Line 79: [sorted(cost_dict.items(), key=lambda item: item[1])], a
    stable sort on the recorded cost. *)
Fixpoint insert_by_value (x : Item * Q) (l : list (Item * Q))
  : list (Item * Q) :=
  match l with
  | [] => [x]
  | y :: t => if Qltb (snd y) (snd x) then y :: insert_by_value x t
              else x :: y :: t
  end.

Definition sorted_by_value (d : dict) : list (Item * Q) :=
  fold_right insert_by_value [] d.

(** The variables the loop of line 81 updates. *)
Record alloc_state : Type := mk_alloc {
  st_histogram : dict;
  st_cost_dict : dict;
  st_budget : Q;
  st_k : Z
}.

(** Lines 85-88: the inner loop of the saturation branch.  The increment
    [cost_dict[curr_item]] is read again at every [j]. *)
Fixpoint saturate (sorted_items : list Item) (curr_item : Item)
  (js : list Z) (histogram cost_dict : dict) : result (dict * dict) :=
  match js with
  | [] => Ok (histogram, cost_dict)
  | j :: js' =>
      remaining_item <- py_index sorted_items j ;;
      c <- dict_get cost_dict curr_item ;;
      let histogram1 := hist_add histogram remaining_item c in
      w <- dict_get cost_dict remaining_item ;;
      c' <- dict_get cost_dict curr_item ;;
      let cost_dict1 := dict_set cost_dict remaining_item (w - c') in
      saturate sorted_items curr_item js' histogram1 cost_dict1
  end.

(** Lines 94-96: the inner loop of the exhaustion branch. *)
Fixpoint spread (sorted_items : list Item) (js : list Z) (budget : Q)
  (k : Z) (histogram : dict) : result dict :=
  match js with
  | [] => Ok histogram
  | j :: js' =>
      remaining_item <- py_index sorted_items j ;;
      d <- py_div budget k ;;
      spread sorted_items js' budget k (hist_add histogram remaining_item d)
  end.

Inductive flow : Type := Continue | Break.

(** Lines 82-97: one iteration of the loop over [enumerate(sorted_items)]. *)
Definition loop_body (sorted_items : list Item) (idx : Z) (curr_item : Item)
  (st : alloc_state) : result (alloc_state * flow) :=
  c <- dict_get (st_cost_dict st) curr_item ;;
  let cost := c * inject_Z (st_k st) in
  if Qle_bool cost (st_budget st) then
    hc <- saturate sorted_items curr_item (py_range idx (st_k st))
            (st_histogram st) (st_cost_dict st) ;;
    Ok (mk_alloc (fst hc) (snd hc) (st_budget st - cost) (st_k st - 1),
        Continue)
  else
    h' <- spread sorted_items (py_range idx (st_k st)) (st_budget st)
            (st_k st) (st_histogram st) ;;
    Ok (mk_alloc h' (st_cost_dict st) (st_budget st) (st_k st), Break).

(** Line 81: the loop itself, [rest] being the items not yet enumerated. *)
Fixpoint water_fill (sorted_items : list Item) (idx : Z) (rest : list Item)
  (st : alloc_state) : result alloc_state :=
  match rest with
  | [] => Ok st
  | curr_item :: rest' =>
      out <- loop_body sorted_items idx curr_item st ;;
      match snd out with
      | Continue => water_fill sorted_items (idx + 1) rest' (fst out)
      | Break => Ok (fst out)
      end
  end.

(** The state at line 81, before the first iteration. *)
Definition alloc_init (gamma : Q) (items : list Item) (histogram : dict)
  : alloc_state :=
  let hc := build_costs gamma items histogram in
  mk_alloc (fst hc) (snd hc) 1 (Z.of_nat (length (snd hc))).

Definition sorted_items_of (st : alloc_state) : list Item :=
  map fst (sorted_by_value (st_cost_dict st)).

(** Lines 71-97 for one user, on the user's bounded item list. *)
Definition allocate_user (gamma : Q) (items : list Item) (histogram : dict)
  : result dict :=
  let st := alloc_init gamma items histogram in
  let sorted_items := sorted_items_of st in
  st' <- water_fill sorted_items 0 sorted_items st ;;
  Ok (st_histogram st').

(** The allocation loop as the specification words it (section 4.2, step
    3), for comparison with [water_fill]: the remaining set is the whole
    suffix [curr_item :: rest], and one increment is applied to all of
    it. *)
Definition spec_raise (rs : list Item) (d : Q) (histogram : dict) : dict :=
  fold_left (fun h r => hist_add h r d) rs histogram.

Definition spec_lower (rs : list Item) (d : Q) (cost_dict : dict) : dict :=
  fold_left (fun cd r => dict_set cd r (weight cd r - d)) rs cost_dict.

Fixpoint spec_water_fill (rest : list Item) (st : alloc_state)
  : result alloc_state :=
  match rest with
  | [] => Ok st
  | curr_item :: rest' =>
      c <- dict_get (st_cost_dict st) curr_item ;;
      let cost := c * inject_Z (st_k st) in
      if Qle_bool cost (st_budget st) then
        spec_water_fill rest'
          (mk_alloc (spec_raise rest c (st_histogram st))
                    (spec_lower rest c (st_cost_dict st))
                    (st_budget st - cost) (st_k st - 1))
      else
        d <- py_div (st_budget st) (st_k st) ;;
        Ok (mk_alloc (spec_raise rest d (st_histogram st))
                     (st_cost_dict st) (st_budget st) (st_k st))
  end.

Definition spec_allocate_user (gamma : Q) (items : list Item)
  (histogram : dict) : result dict :=
  let st := alloc_init gamma items histogram in
  st' <- spec_water_fill (sorted_items_of st) st ;;
  Ok (st_histogram st').

(** The states the loop of line 81 goes through: [reaches sorted_items st0
    idx rest st] when, started in [st0], the loop arrives at the head of
    the iteration of index [idx] in state [st], with [rest] still to
    enumerate. *)
Inductive reaches (sorted_items : list Item) (st0 : alloc_state)
  : Z -> list Item -> alloc_state -> Prop :=
| reaches_first : reaches sorted_items st0 0 sorted_items st0
| reaches_next idx curr_item rest st st' :
    reaches sorted_items st0 idx (curr_item :: rest) st ->
    loop_body sorted_items idx curr_item st = Ok (st', Continue) ->
    reaches sorted_items st0 (idx + 1) rest st'.

End Dict.

(** ** Invariants of the allocation *)

Section Invariants.

Context {Item : Type} `{EqDec Item}.

(** What the cost table records: the headroom of distinct candidates. *)
Definition costs_of (gamma : Q) (h cd : dict (Item := Item)) : Prop :=
  NoDup (keys cd) /\
  forall r, In r (keys cd) ->
            weight cd r = gamma - weight h r /\ weight h r < gamma.

(** Ascending value along a list of entries. *)
Definition value_le (a b : Item * Q) : Prop := snd a <= snd b.

(** Ascending recorded cost along a list of keys. *)
Definition cost_le (cd : dict) (a b : Item) : Prop :=
  weight cd a <= weight cd b.

(** The indices [js] are in range of [sorted_items] and select [rs]. *)
Definition resolves (sorted_items : list Item) (js : list Z)
  (rs : list Item) : Prop :=
  Forall2 (fun j r => py_index sorted_items j = Ok r) js rs.

(** The invariant of the loop of line 81 at the head of an iteration:
    [done] has been enumerated and [rest] is still to come. *)
Record loop_inv (gamma : Q) (sorted_items done rest : list Item) (idx : Z)
  (st : alloc_state (Item := Item)) : Prop := mk_loop_inv {
  inv_split : sorted_items = done ++ rest;
  inv_idx : idx = Z.of_nat (length done);
  inv_k : st_k st = Z.of_nat (length rest);
  inv_nodup : NoDup sorted_items;
  inv_keys : forall r, In r sorted_items -> In r (keys (st_cost_dict st));
  inv_head : forall r, In r rest ->
    weight (st_histogram st) r + weight (st_cost_dict st) r == gamma /\
    0 < weight (st_cost_dict st) r;
  inv_sorted : StronglySorted (cost_le (st_cost_dict st)) rest;
  inv_budget : 0 <= st_budget st
}.

(** The items the inner loops of an iteration write to: the positions
    [idx .. k-1] of [sorted_items]. *)
Definition touched (idx : Z) (rest : list Item)
  (st : alloc_state (Item := Item)) : list Item :=
  firstn (Z.to_nat (st_k st - idx)) rest.

(** Entries are added to the histogram, never removed or duplicated. *)
Definition grows (h h' : dict (Item := Item)) : Prop :=
  (forall i, In i (keys h) -> In i (keys h')) /\
  (NoDup (keys h) -> NoDup (keys h')).

End Invariants.

(** ** Contribution bounding (lines 27-37 and 66-69) *)

(** [random.randint(a, b)]: the [n]-th draw of the run, an integer of
    [a..b] read from the entropy stream. *)
Definition randint (entropy : nat -> Z) (n : nat) (a b : Z) : Z :=
  (a + entropy n mod (b - a + 1))%Z.

(** [l[j] = x] on a list. *)
Definition py_assign {A : Type} (l : list A) (j : Z) (x : A)
  : result (list A) :=
  let n := Z.of_nat (length l) in
  let j' := if (j <? 0)%Z then (j + n)%Z else j in
  if ((j' <? 0) || (n <=? j'))%Z then Raise IndexError
  else Ok (firstn (Z.to_nat j') l ++ x :: skipn (S (Z.to_nat j')) l).

Section Reservoir.

Context {A : Type}.
Variable entropy : nat -> Z.

(** Lines 29-35: the loop over [enumerate(iterable)]; [s] counts the
    random draws made so far. *)
Fixpoint reservoir_loop (max_contrib : Z) (i : Z) (rest : list A)
  (reservoir : list A) (s : nat) : result (list A * nat) :=
  match rest with
  | [] => Ok (reservoir, s)
  | item :: rest' =>
      if (i <? max_contrib)%Z then
        reservoir_loop max_contrib (i + 1) rest' (reservoir ++ [item]) s
      else
        let m := randint entropy s 0 i in
        if (m <? max_contrib)%Z then
          reservoir' <- py_assign reservoir m item ;;
          reservoir_loop max_contrib (i + 1) rest' reservoir' (S s)
        else
          reservoir_loop max_contrib (i + 1) rest' reservoir (S s)
  end.

Definition reservoir_sample (iterable : list A) (max_contrib : Z) (s : nat)
  : result (list A * nat) :=
  reservoir_loop max_contrib 0 iterable [] s.

(** Lines 66-69: the items attributed to a user. *)
Definition bound_contrib (items : list A) (max_contrib : Z) (s : nat)
  : result (list A * nat) :=
  if (max_contrib <? Z.of_nat (length items))%Z
  then reservoir_sample items max_contrib s
  else Ok (items, s).

End Reservoir.

(** The draw of line 33 for the item of index [i] ([max_contrib <= i]) in
    a call of [reservoir_sample] that starts with [s] draws made: the
    items of index below [max_contrib] make no draw, so this is the draw
    number [s + (i - max_contrib)] of the run. *)
Definition draw_of (entropy : nat -> Z) (max_contrib : nat) (s : nat)
  (i : nat) : Z :=
  randint entropy (s + (i - max_contrib)) 0 (Z.of_nat i).

(** [slot_source draw k n j i]: after the first [n] items, slot [j] of the
    reservoir holds the item of index [i].  That is the last item of index
    [k <= i < n] whose draw was [j], and the item of index [j] itself when
    no draw was [j]. *)
Definition slot_source (draw : nat -> Z) (k n j i : nat) : Prop :=
  ((k <= i < n)%nat /\ draw i = Z.of_nat j /\
   forall i', (i < i' < n)%nat -> draw i' <> Z.of_nat j) \/
  (i = j /\ forall i', (k <= i' < n)%nat -> draw i' <> Z.of_nat j).

(** The number of entropy words of [words] for which
    [random.randint(0, i)] is [m]. *)
Definition count_draws (words : list Z) (i m : Z) : nat :=
  length (filter (fun w => (randint (fun _ => w) 0 0 i =? m)%Z) words).

(** ** The mechanism (lines 59-106) and [run_dpsu] *)

Section Mechanism.

Context {Item : Type} `{EqDec Item}.

(** [hash(str(x))] on a user key; user keys are modelled as integers. *)
Variable hash_str : Z -> Z.
(** The draws of [random.randint]. *)
Variable entropy : nat -> Z.
(** [laplace(0, lambd, 1)[0]]: the [n]-th noise sample of the run. *)
Variable laplace : nat -> Q.

(** A row of the preprocessed frame: the user key and the item. *)
Definition row : Type := (Z * Item)%type.

(** Line 63: [df.sort_values("hash")].  Rows of equal hash keep their
    relative order. *)
Fixpoint insert_by_hash (r : row) (l : list row) : list row :=
  match l with
  | [] => [r]
  | y :: t => if (hash_str (fst y) <? hash_str (fst r))%Z
              then y :: insert_by_hash r t
              else r :: y :: t
  end.

Definition sort_values_hash (df : list row) : list row :=
  fold_right insert_by_hash [] df.

(** Line 65: [df.groupby(key_col)].  pandas groups with [sort=True] by
    default: the groups come in ascending order of the group key, and the
    rows of a group keep the order they have in the frame. *)
Fixpoint insert_key (u : Z) (l : list Z) : list Z :=
  match l with
  | [] => [u]
  | v :: t => if (u <? v)%Z then u :: v :: t
              else if (u =? v)%Z then v :: t
              else v :: insert_key u t
  end.

Definition group_keys (df : list row) : list Z :=
  fold_right insert_key [] (map fst df).

Definition groupby (df : list row) : list (Z * list Item) :=
  map (fun u => (u, map snd (filter (fun r => (fst r =? u)%Z) df)))
      (group_keys df).

(** The order in which the loop of line 65 visits the users. *)
Definition visit_order (df : list row) : list Z :=
  map fst (groupby (sort_values_hash df)).

(** Lines 66-97: the body of the loop over the groups. *)
Definition user_step (gamma : Q) (max_contrib : Z) (st : dict * nat)
  (group : list Item) : result (dict * nat) :=
  b <- bound_contrib entropy group max_contrib (snd st) ;;
  histogram' <- allocate_user gamma (fst b) (fst st) ;;
  Ok (histogram', snd b).

Fixpoint process_groups (gamma : Q) (max_contrib : Z)
  (groups : list (list Item)) (st : dict * nat) : result (dict * nat) :=
  match groups with
  | [] => Ok st
  | group :: groups' =>
      st' <- user_step gamma max_contrib st group ;;
      process_groups gamma max_contrib groups' st'
  end.

(** Lines 59-97: the histogram before noise. *)
Definition build_histogram (gamma : Q) (max_contrib : Z) (df : list row)
  : result dict :=
  st <- process_groups gamma max_contrib
          (map snd (groupby (sort_values_hash df))) ([], 0%nat) ;;
  Ok (fst st).

(** Lines 99-103: noise and threshold; [n] counts the samples drawn. *)
Fixpoint release_loop (rho : Q) (n : nat) (ks : list Item)
  (histogram : dict) (items : list Item) : dict * list Item :=
  match ks with
  | [] => (histogram, items)
  | item :: ks' =>
      let histogram1 := hist_add histogram item (laplace n) in
      let (w, histogram2) := hist_read histogram1 item in
      release_loop rho (S n) ks' histogram2
        (if Qltb rho w then items ++ [item] else items)
  end.

Definition release (rho : Q) (histogram : dict) : list Item :=
  snd (release_loop rho 0 (keys histogram) histogram []).

(** [x in items]. *)
Definition isin (x : Item) (items : list Item) : bool :=
  existsb (fun y => if eq_dec x y then true else false) items.

(** The list [items] of line 103. *)
Definition released_items (rho gamma : Q) (max_contrib : Z)
  (df : list row) : result (list Item) :=
  histogram <- build_histogram gamma max_contrib df ;;
  Ok (release rho histogram).

(** Lines 59-106 of [policy_laplace] only: the part of the function that
    runs once lines 53-57 have returned, given the values [rho] and
    [gamma] they computed, here as exact rationals.  Lines 53-57 are in
    module [Params], on binary64 floats; they raise before line 59 for
    [eps == 0], for [max_contrib < 1] and for other arguments shown
    there, and then the function raises whatever [df] is.  A result [Ok]
    of this definition is therefore the result of the function for the
    arguments on which lines 53-57 return. *)
Definition policy_laplace (rho gamma : Q) (max_contrib : Z) (df : list row)
  : result (list row) :=
  items <- released_items rho gamma max_contrib df ;;
  Ok (filter (fun r => isin (snd r) items) (sort_values_hash df)).

(** Line 113: [pd.merge(input_df, dpsu_df, on=key_col)], an inner join on
    the user key alone. *)
Definition merge_on_key (left right : list row) : list (row * row) :=
  flat_map
    (fun l => map (fun r => (l, r))
                  (filter (fun r => (fst r =? fst l)%Z) right))
    left.

(** Lines 111-115 of [run_dpsu], from the frame [input_df] that
    [preprocess_df_from_query] returned at line 110: the query parser and
    the column extraction of lines 10-25 are not part of this definition,
    and neither are lines 53-57 of [policy_laplace] (see above).  A row of
    [input_df] is seen through its user key and the tuple of its grouping
    columns; dropping the columns ["group_cols"] and ["hash"] of the join
    at line 114 leaves the input row. *)
Definition run_dpsu (rho gamma : Q) (max_contrib : Z) (input_df : list row)
  : result (list row) :=
  dpsu_df <- policy_laplace rho gamma max_contrib input_df ;;
  Ok (map fst (merge_on_key input_df dpsu_df)).

End Mechanism.

(** ** Concrete inputs *)

(** [rho] and [gamma] for [eps = 1.0], [delta = exp(-10)] and
    [max_contrib = 2], to eight decimals. *)
Definition rho_default : Q := 1049998865 # 100000000.
Definition gamma_default : Q := 1349998865 # 100000000.

(** Thirteen users who each contribute item ["A"], and a fourteenth who
    contributes ["A"] and ["B"]. *)
Definition df_fourteen : list (row (Item := String.string)) :=
  map (fun u => (Z.of_nat u, "A"%string)) (seq 1 13) ++
  [(14%Z, "A"%string); (14%Z, "B"%string)].

(** One user with the rows ["A"] and ["B"]. *)
Definition df_one_user : list (row (Item := String.string)) :=
  [(1%Z, "A"%string); (1%Z, "B"%string)].

(** Noise samples: [20] for the first histogram entry, [0] afterwards. *)
Definition noise_first (n : nat) : Q :=
  match n with
  | O => 20
  | S _ => 0
  end.

(** The users [2] and [3], with the values of [hash(str(2))] and
    [hash(str(3))] of CPython 3.11 under [PYTHONHASHSEED=0]. *)
Definition df_two_users : list (row (Item := String.string)) :=
  [(2%Z, "A"%string); (3%Z, "B"%string)].

Definition hash_seed0 (x : Z) : Z :=
  if (x =? 2)%Z then 1450935647650615885
  else if (x =? 3)%Z then (-6250727467951016618)
  else x.

(** ** The derivation of [rho] and [gamma] (lines 53-57) *)

(** Lines 53-57 on binary64 floats, which are the primitive floats of the
    kernel: [+], [-], [*] and [/] round as Python's do.  The C library
    functions [pow] and [log], which CPython calls for [**] and
    [math.log], are not part of the repository and are parameters; what
    CPython does around the two calls is written out. *)
Module Params.

Section Libm.

Variable libm_pow : float -> float -> float.
Variable libm_log : float -> float.

(** [a / b] on floats. *)
Definition fdiv (a b : float) : result float :=
  if PrimFloat.eqb b 0 then Raise ZeroDivisionError
  else Ok (PrimFloat.div a b).

(** The float of a Python int, for [0 <= i < 2**53]. *)
Definition float_of_int (i : Z) : float :=
  PrimFloat.of_uint63 (Uint63.of_Z i).

(** [1 / i] on ints (true division). *)
Definition int_inv (i : Z) : result float :=
  if (i =? 0)%Z then Raise ZeroDivisionError
  else Ok (PrimFloat.div 1 (float_of_int i)).

(** [x ** y] on floats ([float_pow] of CPython), for an exponent
    [0 < y <= 1] (here [y = 1 / i]), which is an odd integer exactly when
    it is [1.0].  A negative base with a fractional exponent becomes a
    complex number, which [math.log] then refuses with a [TypeError];
    nothing else happens in between, so the error is raised here. *)
Definition float_pow (x y : float) : result float :=
  let odd := PrimFloat.eqb y 1 in
  if PrimFloat.is_nan x then Ok x
  else if PrimFloat.is_infinity x then
    Ok (if odd then x else PrimFloat.abs x)
  else if PrimFloat.eqb x 0 then Ok (if odd then x else 0%float)
  else
    let neg := PrimFloat.ltb x 0 in
    if neg && negb odd then Raise TypeError
    else
      let v := if neg then PrimFloat.opp x else x in
      if PrimFloat.eqb v 1 then Ok (if neg then (-1)%float else 1%float)
      else
        let r := libm_pow v y in
        if PrimFloat.is_infinity r then Raise OverflowError
        else Ok (if neg then PrimFloat.opp r else r).

(** [math.log(x)] on a float. *)
Definition math_log (x : float) : result float :=
  if PrimFloat.is_nan x then Ok x
  else if PrimFloat.is_infinity x then
    if PrimFloat.ltb 0 x then Ok x else Raise ValueError
  else if PrimFloat.ltb 0 x then
    let r := libm_log x in
    if PrimFloat.is_nan r || PrimFloat.is_infinity r then Raise ValueError
    else Ok r
  else Raise ValueError.

(** The element of the list of line 55 for one [i]. *)
Definition rho_term (lambd delta : float) (i : Z) : result float :=
  a <- int_inv i ;;
  y <- int_inv i ;;
  p <- float_pow (PrimFloat.sub 1 delta) y ;;
  q <- fdiv 1 (PrimFloat.mul 2 (PrimFloat.sub 1 p)) ;;
  l <- math_log q ;;
  Ok (PrimFloat.add a (PrimFloat.mul lambd l)).

Fixpoint rho_terms (lambd delta : float) (ns : list Z)
  : result (list float) :=
  match ns with
  | [] => Ok []
  | i :: ns' =>
      t <- rho_term lambd delta i ;;
      ts <- rho_terms lambd delta ns' ;;
      Ok (t :: ts)
  end.

(** [max(l)] on floats: the first of the largest items, by [>]. *)
Definition py_max (l : list float) : result float :=
  match l with
  | [] => Raise ValueError
  | x :: t => Ok (fold_left (fun m y => if PrimFloat.ltb m y then y else m)
                            t x)
  end.

Definition alpha : float := 3%float.

(** Lines 53-57: [(lambd, rho, gamma)]. *)
Definition derive_params (eps delta : float) (max_contrib : Z)
  : result (float * float * float) :=
  lambd <- fdiv 1 eps ;;
  rhos <- rho_terms lambd delta (py_range 1 (max_contrib + 1)) ;;
  rho <- py_max rhos ;;
  Ok (lambd, rho, PrimFloat.add rho (PrimFloat.mul alpha lambd)).


End Libm.

(** The preconditions of the parameters contract. *)
Definition valid_params (eps delta : float) (max_contrib : Z) : Prop :=
  PrimFloat.ltb 0 eps = true /\
  PrimFloat.ltb 0 delta = true /\ PrimFloat.ltb delta 1 = true /\
  (1 <= max_contrib)%Z.



End Params.

(** The real numbers of which [rho] and [gamma] are the floating-point
    approximations: the formulas of lines 55-57 in exact arithmetic, for
    [max_contrib >= 1]. *)
Module RealFormula.

Local Open Scope R_scope.

Definition rho_term (lambd delta : R) (i : Z) : R :=
  1 / IZR i + lambd * ln (1 / (2 * (1 - Rpower (1 - delta) (1 / IZR i)))).

Definition rho (eps delta : R) (max_contrib : Z) : R :=
  fold_left Rmax
    (map (rho_term (1 / eps) delta) (py_range 2 (max_contrib + 1)))
    (rho_term (1 / eps) delta 1).

Definition gamma (eps delta : R) (max_contrib : Z) : R :=
  rho eps delta max_contrib + 3 * (1 / eps).

End RealFormula.

Ltac qlra := Lqa.lra.
Ltac rlra := Lra.lra.

(** * Facts *)

(** ** The error monad *)

Lemma bind_Ok {A B : Type} (c : result A) (f : A -> result B) (b : B) :
  bind c f = Ok b -> exists a, c = Ok a /\ f a = Ok b.
Proof.
  destruct c as [a|e]; simpl; intros E; [exists a; auto | discriminate].
Qed.

(** ** Dictionaries *)

Section DictFacts.

Context {Item : Type} `{EqDec Item}.

Implicit Types (d h : dict (Item := Item)) (i j r : Item) (v w : Q).

Lemma dict_find_set_eq d i v : dict_find (dict_set d i v) i = Some v.
Proof.
  induction d as [|[j w] t IH]; simpl.
  - destruct (eq_dec i i); congruence.
  - destruct (eq_dec i j) as [->|N]; simpl.
    + destruct (eq_dec j j); congruence.
    + destruct (eq_dec i j); [contradiction | exact IH].
Qed.

Lemma dict_find_set_neq d i j v :
  i <> j -> dict_find (dict_set d j v) i = dict_find d i.
Proof.
  intros N. induction d as [|[k w] t IH]; simpl.
  - destruct (eq_dec i j); [contradiction | reflexivity].
  - destruct (eq_dec j k) as [->|N']; simpl.
    + destruct (eq_dec i k); [contradiction | reflexivity].
    + destruct (eq_dec i k); [reflexivity | exact IH].
Qed.

Lemma dict_find_in d i : In i (keys d) <-> dict_find d i <> None.
Proof.
  induction d as [|[j w] t IH]; simpl.
  - split; [tauto | congruence].
  - destruct (eq_dec i j) as [->|N].
    + split; [congruence | auto].
    + rewrite <- IH. split; [intros [E|I]; [congruence | exact I] | auto].
Qed.

Lemma dict_find_notin d i : ~ In i (keys d) -> dict_find d i = None.
Proof.
  intros N. destruct (dict_find d i) eqn:E; [|reflexivity].
  exfalso. apply N, dict_find_in. congruence.
Qed.

Lemma dict_get_in d i : In i (keys d) -> dict_get d i = Ok (weight d i).
Proof.
  intros I. apply dict_find_in in I. unfold dict_get, weight.
  destruct (dict_find d i); congruence.
Qed.

Lemma keys_set_in d i v : In i (keys d) -> keys (dict_set d i v) = keys d.
Proof.
  induction d as [|[j w] t IH]; simpl; [tauto|].
  intros I. destruct (eq_dec i j) as [->|N]; simpl; [reflexivity|].
  f_equal. apply IH. destruct I; congruence.
Qed.

Lemma keys_set_notin d i v :
  ~ In i (keys d) -> keys (dict_set d i v) = keys d ++ [i].
Proof.
  induction d as [|[j w] t IH]; simpl; [reflexivity|].
  intros N. destruct (eq_dec i j) as [->|N']; simpl; [tauto|].
  f_equal. apply IH. tauto.
Qed.

Lemma in_keys_set d i j v :
  In j (keys (dict_set d i v)) <-> j = i \/ In j (keys d).
Proof.
  destruct (in_dec eq_dec i (keys d)) as [I|N].
  - rewrite keys_set_in by exact I. split; [auto | intros [->|]; auto].
  - rewrite keys_set_notin by exact N. rewrite in_app_iff. simpl.
    split; [intros [|[|[]]]; auto | intros [|]; auto].
Qed.

Lemma nodup_keys_set d i v : NoDup (keys d) -> NoDup (keys (dict_set d i v)).
Proof.
  intros ND. destruct (in_dec eq_dec i (keys d)) as [I|N].
  - rewrite keys_set_in by exact I. exact ND.
  - rewrite keys_set_notin by exact N.
    apply NoDup_app; [exact ND | repeat constructor; simpl; tauto |].
    intros x Ix [<-|[]]. contradiction.
Qed.

Lemma weight_set_eq d i v : weight (dict_set d i v) i = v.
Proof. unfold weight. rewrite dict_find_set_eq. reflexivity. Qed.

Lemma weight_set_neq d i j v : i <> j -> weight (dict_set d j v) i = weight d i.
Proof. intros N. unfold weight. rewrite dict_find_set_neq by exact N. reflexivity. Qed.

Lemma total_set d i v :
  hist_total (dict_set d i v) == hist_total d - weight d i + v.
Proof.
  induction d as [|[j w] t IH]; unfold weight in *; simpl.
  - qlra.
  - destruct (eq_dec i j) as [->|N]; simpl; [|rewrite IH]; qlra.
Qed.

Lemma hist_read_fst h i : fst (hist_read h i) = weight h i.
Proof. unfold hist_read, weight. destruct (dict_find h i); reflexivity. Qed.

Lemma weight_hist_read h i j : weight (snd (hist_read h i)) j = weight h j.
Proof.
  unfold hist_read. destruct (dict_find h i) eqn:E; simpl; [reflexivity|].
  destruct (eq_dec j i) as [->|N].
  - rewrite weight_set_eq. unfold weight. rewrite E. reflexivity.
  - apply weight_set_neq, N.
Qed.

Lemma total_hist_read h i : hist_total (snd (hist_read h i)) == hist_total h.
Proof.
  unfold hist_read. destruct (dict_find h i) eqn:E; simpl; [reflexivity|].
  rewrite total_set. unfold weight. rewrite E. qlra.
Qed.

Lemma in_keys_hist_read h i j :
  In j (keys (snd (hist_read h i))) <-> j = i \/ In j (keys h).
Proof.
  unfold hist_read. destruct (dict_find h i) eqn:E; simpl.
  - split; [auto | intros [->|I]; [|exact I]].
    apply dict_find_in. congruence.
  - apply in_keys_set.
Qed.

Lemma nodup_keys_hist_read h i :
  NoDup (keys h) -> NoDup (keys (snd (hist_read h i))).
Proof.
  unfold hist_read. destruct (dict_find h i); simpl;
    [auto | apply nodup_keys_set].
Qed.

Lemma hist_add_unfold h i v :
  hist_add h i v = dict_set (snd (hist_read h i)) i (weight h i + v).
Proof.
  unfold hist_add. rewrite <- hist_read_fst.
  destruct (hist_read h i); reflexivity.
Qed.

Lemma weight_add_eq h i v : weight (hist_add h i v) i = weight h i + v.
Proof. rewrite hist_add_unfold. apply weight_set_eq. Qed.

Lemma weight_add_neq h i j v : i <> j -> weight (hist_add h j v) i = weight h i.
Proof.
  intros N. rewrite hist_add_unfold, weight_set_neq by exact N.
  apply weight_hist_read.
Qed.

Lemma total_add h i v : hist_total (hist_add h i v) == hist_total h + v.
Proof.
  rewrite hist_add_unfold, total_set, total_hist_read, weight_hist_read. qlra.
Qed.

Lemma in_keys_add h i j v :
  In j (keys (hist_add h i v)) <-> j = i \/ In j (keys h).
Proof.
  rewrite hist_add_unfold, in_keys_set, in_keys_hist_read. tauto.
Qed.

Lemma nodup_keys_add h i v : NoDup (keys h) -> NoDup (keys (hist_add h i v)).
Proof.
  intros ND. rewrite hist_add_unfold.
  apply nodup_keys_set, nodup_keys_hist_read, ND.
Qed.

End DictFacts.

(** ** The cost table and its sorted keys *)

Section CostFacts.

Context {Item : Type} `{EqDec Item}.

Implicit Types (d h cd : dict (Item := Item)) (i j r : Item) (v w : Q).

Lemma Qltb_lt (a b : Q) : Qltb a b = true <-> a < b.
Proof.
  unfold Qltb. rewrite negb_true_iff, <- not_true_iff_false, Qle_bool_iff.
  split; [apply Qnot_le_lt | apply Qlt_not_le].
Qed.

Lemma Qltb_ge (a b : Q) : Qltb a b = false <-> b <= a.
Proof.
  unfold Qltb. rewrite negb_false_iff, Qle_bool_iff. reflexivity.
Qed.

Lemma hist_read_again h i :
  hist_read (snd (hist_read h i)) i = (weight h i, snd (hist_read h i)).
Proof.
  unfold hist_read at 1.
  pose proof (weight_hist_read h i i) as W. unfold weight at 1 in W.
  destruct (dict_find (snd (hist_read h i)) i) eqn:E.
  - rewrite W. reflexivity.
  - exfalso. assert (I : In i (keys (snd (hist_read h i))))
      by (apply in_keys_hist_read; auto).
    apply dict_find_in in I. congruence.
Qed.

Lemma cost_step_eq gamma h cd i :
  cost_step gamma (h, cd) i =
  (snd (hist_read h i),
   if Qltb (weight h i) gamma then dict_set cd i (gamma - weight h i)
   else cd).
Proof.
  unfold cost_step. rewrite <- (hist_read_fst h i).
  destruct (hist_read h i) as [w h1] eqn:E. simpl.
  destruct (Qltb w gamma); [|reflexivity].
  replace h1 with (snd (hist_read h i)) by (rewrite E; reflexivity).
  rewrite hist_read_again. simpl. rewrite <- hist_read_fst, E. reflexivity.
Qed.

Lemma build_costs_gen gamma items : forall h cd h0,
  (forall j, weight h j = weight h0 j) ->
  costs_of gamma h0 cd ->
  let hc := fold_left (cost_step gamma) items (h, cd) in
  (forall j, weight (fst hc) j = weight h0 j) /\
  hist_total (fst hc) == hist_total h /\
  (forall j, In j (keys (fst hc)) <-> In j items \/ In j (keys h)) /\
  (NoDup (keys h) -> NoDup (keys (fst hc))) /\
  (forall r, In r (keys (snd hc)) -> In r items \/ In r (keys cd)) /\
  costs_of gamma h0 (snd hc).
Proof.
  induction items as [|a items IH]; intros h cd h0 W C; cbv zeta;
    cbn [fold_left].
  - simpl. split; [exact W|]. split; [reflexivity|]. split; [tauto|].
    split; [tauto|]. split; [tauto | exact C].
  - rewrite cost_step_eq.
    set (h1 := snd (hist_read h a)).
    set (cd1 := if Qltb (weight h a) gamma
                then dict_set cd a (gamma - weight h a) else cd).
    assert (W1 : forall j, weight h1 j = weight h0 j)
      by (intros j; unfold h1; rewrite weight_hist_read; apply W).
    assert (C1 : costs_of gamma h0 cd1).
    { unfold cd1. destruct (Qltb (weight h a) gamma) eqn:L; [|exact C].
      apply Qltb_lt in L. destruct C as [ND C]. split.
      - apply nodup_keys_set, ND.
      - intros r I. destruct (eq_dec r a) as [->|N].
        + rewrite weight_set_eq, <- W. auto.
        + rewrite weight_set_neq by exact N. apply C.
          apply in_keys_set in I. destruct I; [contradiction | assumption]. }
    destruct (IH h1 cd1 h0 W1 C1) as (A1 & A2 & A3 & A4 & A5 & A6).
    split; [exact A1|]. split; [rewrite A2; apply total_hist_read|].
    split; [|split; [|split; [|exact A6]]].
    + intros j. rewrite A3. unfold h1. rewrite in_keys_hist_read.
      simpl. intuition (subst; auto).
    + intros ND. apply A4, nodup_keys_hist_read, ND.
    + intros r Ir. apply A5 in Ir. simpl. destruct Ir as [Ir|Ir]; [auto|].
      unfold cd1 in Ir. destruct (Qltb (weight h a) gamma); [|auto].
      apply in_keys_set in Ir. destruct Ir as [->|Ir]; auto.
Qed.

Lemma build_costs_spec gamma items h :
  let hc := build_costs gamma items h in
  (forall j, weight (fst hc) j = weight h j) /\
  hist_total (fst hc) == hist_total h /\
  (forall j, In j (keys (fst hc)) <-> In j items \/ In j (keys h)) /\
  (NoDup (keys h) -> NoDup (keys (fst hc))) /\
  (forall r, In r (keys (snd hc)) -> In r items) /\
  costs_of gamma h (snd hc).
Proof.
  destruct (@build_costs_gen gamma items h [] h)
    as (A1 & A2 & A3 & A4 & A5 & A6).
  - reflexivity.
  - split; [constructor | intros r []].
  - cbv zeta. split; [exact A1|]. split; [exact A2|]. split; [exact A3|].
    split; [exact A4|]. split; [|exact A6].
    intros r Ir. apply A5 in Ir. destruct Ir as [Ir|[]]. exact Ir.
Qed.

Lemma insert_by_value_perm (x : Item * Q) l :
  Permutation (insert_by_value x l) (x :: l).
Proof.
  induction l as [|y t IH]; simpl; [reflexivity|].
  destruct (Qltb (snd y) (snd x)); [|reflexivity].
  rewrite IH. apply perm_swap.
Qed.

Lemma sorted_by_value_perm d : Permutation (sorted_by_value d) d.
Proof.
  induction d as [|x t IH]; simpl; [reflexivity|].
  rewrite insert_by_value_perm. constructor. exact IH.
Qed.

Lemma insert_by_value_sorted (x : Item * Q) l :
  StronglySorted value_le l -> StronglySorted value_le (insert_by_value x l).
Proof.
  induction l as [|y t IH]; simpl; intros S.
  - repeat constructor.
  - inversion S as [|? ? S' F]; subst.
    destruct (Qltb (snd y) (snd x)) eqn:L.
    + apply Qltb_lt in L. constructor; [apply IH, S'|].
      rewrite (Forall_forall (value_le y)). intros z Iz.
      apply (Permutation_in _ (insert_by_value_perm x t)) in Iz.
      destruct Iz as [<-|Iz]; [apply Qlt_le_weak, L|].
      rewrite Forall_forall in F. apply F, Iz.
    + apply Qltb_ge in L. constructor; [exact S|].
      constructor; [exact L|].
      rewrite Forall_forall in F |- *. intros z Iz.
      unfold value_le in *. apply Qle_trans with (snd y); [exact L | apply F, Iz].
Qed.

Lemma sorted_by_value_sorted d : StronglySorted value_le (sorted_by_value d).
Proof.
  induction d as [|x t IH]; simpl; [constructor|].
  apply insert_by_value_sorted, IH.
Qed.

Lemma find_in_nodup d r v :
  NoDup (keys d) -> In (r, v) d -> dict_find d r = Some v.
Proof.
  induction d as [|[j w] t IH]; simpl; [tauto|].
  intros ND [E|I].
  - inversion E; subst. destruct (eq_dec r r); congruence.
  - inversion ND as [|? ? NI ND']; subst.
    destruct (eq_dec r j) as [->|N]; [|apply IH; assumption].
    exfalso. apply NI. change j with (fst (j, v)). apply in_map, I.
Qed.

Lemma sorted_keys_cost_le cd (l : list (Item * Q)) :
  NoDup (keys cd) -> (forall x, In x l -> In x cd) ->
  StronglySorted value_le l -> StronglySorted (cost_le cd) (map fst l).
Proof.
  intros ND In_cd S. induction S as [|x l S IH F]; simpl; constructor.
  - apply IH. intros y Iy. apply In_cd. right. exact Iy.
  - rewrite Forall_forall in F |- *. intros r Ir.
    apply in_map_iff in Ir. destruct Ir as [[r' v] [<- Iy]].
    specialize (F (r', v) Iy).
    unfold cost_le, weight. destruct x as [rx vx]. simpl.
    rewrite (find_in_nodup cd rx vx ND) by (apply In_cd; left; reflexivity).
    rewrite (find_in_nodup cd r' v ND) by (apply In_cd; right; exact Iy).
    exact F.
Qed.

Lemma sorted_keys_spec cd :
  NoDup (keys cd) ->
  let s := map fst (sorted_by_value cd) in
  Permutation s (keys cd) /\ NoDup s /\ StronglySorted (cost_le cd) s.
Proof.
  intros ND s.
  assert (P : Permutation s (keys cd))
    by (apply Permutation_map, sorted_by_value_perm).
  split; [exact P|]. split.
  - apply (Permutation_NoDup (Permutation_sym P)), ND.
  - apply sorted_keys_cost_le; [exact ND | | apply sorted_by_value_sorted].
    intros x. apply Permutation_in, sorted_by_value_perm.
Qed.

End CostFacts.

(** ** The inner loops *)

Section InnerLoops.

Context {Item : Type} `{EqDec Item}.

Implicit Types (d h cd : dict (Item := Item)) (i r curr : Item) (v w : Q).

Lemma py_index_app (done rest : list Item) (n : nat) (x : Item) :
  nth_error rest n = Some x ->
  py_index (done ++ rest) (Z.of_nat (length done) + Z.of_nat n) = Ok x.
Proof.
  intros E.
  assert (L : (n < length rest)%nat) by (apply nth_error_Some; congruence).
  unfold py_index. rewrite length_app.
  destruct (Z.ltb_spec (Z.of_nat (length done) + Z.of_nat n) 0); [lia|].
  destruct (Z.ltb_spec (Z.of_nat (length done) + Z.of_nat n) 0); [lia|].
  destruct (Z.leb_spec (Z.of_nat (length done + length rest))
              (Z.of_nat (length done) + Z.of_nat n)); [lia|].
  simpl.
  replace (Z.to_nat (Z.of_nat (length done) + Z.of_nat n))
    with (length done + n)%nat by lia.
  rewrite nth_error_app2 by lia.
  replace (length done + n - length done)%nat with n by lia.
  rewrite E. reflexivity.
Qed.

Lemma range_resolves (done rest : list Item) : forall m s,
  (s + m <= length rest)%nat ->
  resolves (done ++ rest)
    (map (fun n => (Z.of_nat (length done) + Z.of_nat n)%Z) (seq s m))
    (firstn m (skipn s rest)).
Proof.
  induction m as [|m IH]; intros s L; simpl; [constructor|].
  destruct (nth_error rest s) as [x|] eqn:E;
    [|apply nth_error_None in E; lia].
  assert (S : skipn s rest = x :: skipn (S s) rest).
  { clear - E. revert s E. induction rest as [|y t IH]; intros [|s] E;
      simpl in *; try discriminate; [congruence | apply (IH s E)]. }
  rewrite S. simpl. constructor; [apply py_index_app, E|].
  apply IH. lia.
Qed.

Lemma py_range_resolves (done rest : list Item) (b : Z) :
  (b <= Z.of_nat (length done) + Z.of_nat (length rest))%Z ->
  resolves (done ++ rest) (py_range (Z.of_nat (length done)) b)
    (firstn (Z.to_nat (b - Z.of_nat (length done))) rest).
Proof.
  intros L. unfold py_range.
  apply (range_resolves done rest (Z.to_nat (b - Z.of_nat (length done))) 0).
  lia.
Qed.

(** Once the cost of the current item reads [0], the saturation loop
    changes no weight and no cost. *)
Lemma saturate_zero sorted_items curr js rs :
  resolves sorted_items js rs -> forall h cd,
  In curr (keys cd) -> (forall r, In r rs -> In r (keys cd)) ->
  weight cd curr == 0 ->
  exists h' cd', saturate sorted_items curr js h cd = Ok (h', cd') /\
    (forall i, weight h' i == weight h i) /\
    (forall i, weight cd' i == weight cd i) /\
    keys cd' = keys cd /\
    hist_total h' == hist_total h /\
    (forall i, In i (keys h') <-> In i rs \/ In i (keys h)).
Proof.
  induction 1 as [|j r js rs Hj Hrs IH]; intros h cd Ic Irs Z0; simpl.
  - exists h, cd. repeat split; try reflexivity; tauto.
  - rewrite Hj. simpl. rewrite (dict_get_in cd curr Ic). simpl.
    rewrite (dict_get_in cd r) by (apply Irs; left; reflexivity). simpl.
    set (c := weight cd curr) in *.
    assert (K1 : keys (dict_set cd r (weight cd r - c)) = keys cd)
      by (apply keys_set_in, Irs; left; reflexivity).
    destruct (IH (hist_add h r c) (dict_set cd r (weight cd r - c)))
      as (h' & cd' & E & W & C & K & T & I).
    + rewrite K1. exact Ic.
    + intros x Ix. rewrite K1. apply Irs. right. exact Ix.
    + destruct (eq_dec curr r) as [->|N].
      * rewrite weight_set_eq. fold c. qlra.
      * rewrite weight_set_neq by exact N. exact Z0.
    + exists h', cd'. split; [exact E|]. split; [|split; [|split; [|split]]].
      * intros i. rewrite W. destruct (eq_dec i r) as [->|N].
        -- rewrite weight_add_eq. qlra.
        -- rewrite weight_add_neq by exact N. reflexivity.
      * intros i. rewrite C. destruct (eq_dec i r) as [->|N].
        -- rewrite weight_set_eq. qlra.
        -- rewrite weight_set_neq by exact N. reflexivity.
      * rewrite K. exact K1.
      * rewrite T, total_add. qlra.
      * intros i. rewrite I, in_keys_add. simpl. intuition (subst; auto).
Qed.

(** The saturation loop on a non-empty range that starts at the current
    item: the first assignment saturates the current item and clears its
    recorded cost, so every later increment is [0]. *)
Lemma saturate_first sorted_items curr j js rs h cd :
  py_index sorted_items j = Ok curr ->
  resolves sorted_items js rs ->
  In curr (keys cd) -> (forall r, In r rs -> In r (keys cd)) ->
  exists h' cd', saturate sorted_items curr (j :: js) h cd = Ok (h', cd') /\
    (forall i, weight h' i ==
               weight h i + (if eq_dec i curr then weight cd curr else 0)) /\
    (forall i, weight cd' i == if eq_dec i curr then 0 else weight cd i) /\
    keys cd' = keys cd /\
    hist_total h' == hist_total h + weight cd curr /\
    (forall i, In i (keys h') <-> i = curr \/ In i rs \/ In i (keys h)).
Proof.
  intros Hj R Ic Irs. simpl. rewrite Hj. simpl.
  rewrite (dict_get_in cd curr Ic). simpl.
  set (c := weight cd curr).
  assert (K1 : keys (dict_set cd curr (c - c)) = keys cd)
    by (apply keys_set_in, Ic).
  destruct (saturate_zero curr R (hist_add h curr c)
              (dict_set cd curr (c - c)))
    as (h' & cd' & E & W & C & K & T & I).
  - rewrite K1. exact Ic.
  - intros x Ix. rewrite K1. apply Irs, Ix.
  - rewrite weight_set_eq. qlra.
  - exists h', cd'. split; [exact E|]. split; [|split; [|split; [|split]]].
    + intros i. rewrite W. destruct (eq_dec i curr) as [->|N].
      * rewrite weight_add_eq. reflexivity.
      * rewrite weight_add_neq by exact N. qlra.
    + intros i. rewrite C. destruct (eq_dec i curr) as [->|N].
      * rewrite weight_set_eq. qlra.
      * rewrite weight_set_neq by exact N. reflexivity.
    + rewrite K. exact K1.
    + rewrite T, total_add. reflexivity.
    + intros i. rewrite I, in_keys_add. intuition (subst; auto).
Qed.

(** The exhaustion loop adds [budget / k] once to every selected item. *)
Lemma spread_spec sorted_items js rs budget k :
  resolves sorted_items js rs -> k <> 0%Z -> NoDup rs -> forall h,
  exists h', spread sorted_items js budget k h = Ok h' /\
    (forall i, weight h' i ==
               weight h i + (if in_dec eq_dec i rs
                             then budget / inject_Z k else 0)) /\
    hist_total h' ==
      hist_total h + inject_Z (Z.of_nat (length rs)) * (budget / inject_Z k) /\
    (forall i, In i (keys h') <-> In i rs \/ In i (keys h)).
Proof.
  intros R K. induction R as [|j r js rs Hj Hrs IH]; intros ND h;
    cbn [spread].
  - exists h. split; [reflexivity|]. split; [intros i; simpl; qlra|].
    split; [|simpl; tauto]. unfold inject_Z. simpl. qlra.
  - rewrite Hj. cbn [bind]. unfold py_div.
    destruct (Z.eqb_spec k 0) as [?|_]; [contradiction|]. cbn [bind].
    inversion ND as [|? ? NI ND']; subst.
    destruct (IH ND' (hist_add h r (budget / inject_Z k)))
      as (h' & E & W & T & I).
    exists h'. split; [exact E|]. split; [|split].
    + intros i. rewrite W. destruct (eq_dec r i) as [->|N].
      * rewrite weight_add_eq.
        destruct (in_dec eq_dec i rs) as [?|_]; [contradiction|].
        destruct (in_dec eq_dec i (i :: rs)) as [_|N];
          [qlra | exfalso; apply N; left; reflexivity].
      * rewrite weight_add_neq by congruence.
        destruct (in_dec eq_dec i rs) as [I1|N1];
          destruct (in_dec eq_dec i (r :: rs)) as [I2|N2];
          try reflexivity.
        -- exfalso. apply N2. right. exact I1.
        -- exfalso. destruct I2; [congruence | contradiction].
    + rewrite T, total_add. cbn [length].
      rewrite Nat2Z.inj_succ, <- Z.add_1_r, inject_Z_plus.
      change (inject_Z 1) with 1. ring.
    + intros i. rewrite I, in_keys_add. simpl. intuition (subst; auto).
Qed.

End InnerLoops.

(** ** Arithmetic of the shares *)

Lemma one_le_inject (k : Z) : (1 <= k)%Z -> 1 <= inject_Z k.
Proof. intros K. change 1 with (inject_Z 1). rewrite <- Zle_Qle. exact K. Qed.

Lemma scale_ge (c : Q) (k : Z) : 0 <= c -> (1 <= k)%Z -> c <= c * inject_Z k.
Proof. intros C K. pose proof (one_le_inject K). Lqa.nra. Qed.

Lemma share_nonneg (b : Q) (k : Z) :
  0 <= b -> (1 <= k)%Z -> 0 <= b / inject_Z k.
Proof.
  intros B K. pose proof (one_le_inject K). apply Qle_shift_div_l; qlra.
Qed.

Lemma share_le (b : Q) (k t : Z) :
  0 <= b -> (0 <= t <= k)%Z -> (1 <= k)%Z ->
  inject_Z t * (b / inject_Z k) <= b.
Proof.
  intros B T K. pose proof (one_le_inject K) as K1.
  assert (T0 : 0 <= inject_Z t)
    by (change 0 with (inject_Z 0); rewrite <- Zle_Qle; lia).
  assert (T1 : inject_Z t <= inject_Z k) by (rewrite <- Zle_Qle; lia).
  pose proof (share_nonneg B K) as D.
  assert (E : b == inject_Z k * (b / inject_Z k)) by (field; qlra).
  rewrite E at 2. Lqa.nra.
Qed.

Lemma share_lt (b c : Q) (k : Z) :
  (1 <= k)%Z -> b < c * inject_Z k -> b / inject_Z k < c.
Proof.
  intros K L. pose proof (one_le_inject K). apply Qlt_shift_div_r; qlra.
Qed.

(** ** The water-filling loop *)

Lemma firstn_In {A : Type} (l : list A) (m : nat) (x : A) :
  In x (firstn m l) -> In x l.
Proof.
  revert m. induction l as [|y t IH]; intros [|m]; simpl; try tauto.
  intros [E|I]; [auto | right; apply (IH m I)].
Qed.

Lemma NoDup_firstn {A : Type} (l : list A) (m : nat) :
  NoDup l -> NoDup (firstn m l).
Proof.
  revert m. induction l as [|x t IH]; intros [|m] ND; simpl;
    try constructor; inversion ND; subst.
  - intros I. apply firstn_In in I. contradiction.
  - apply IH. assumption.
Qed.

Lemma NoDup_app_r {A : Type} (l1 l2 : list A) : NoDup (l1 ++ l2) -> NoDup l2.
Proof.
  induction l1 as [|x t IH]; simpl; [auto|].
  intros ND. inversion ND; auto.
Qed.

Lemma NoDup_app_notin {A : Type} (l1 l2 : list A) (x : A) :
  NoDup (l1 ++ x :: l2) -> ~ In x l2.
Proof.
  intros ND I. apply NoDup_app_r in ND. inversion ND; contradiction.
Qed.

Section WaterFill.

Context {Item : Type} `{EqDec Item}.
Variable gamma : Q.

Implicit Types (d h cd : dict (Item := Item)) (i r curr : Item)
  (st : alloc_state (Item := Item)).

Lemma touched_resolves sorted_items done rest idx st :
  loop_inv gamma sorted_items done rest idx st ->
  resolves sorted_items (py_range idx (st_k st)) (touched idx rest st).
Proof.
  intros [S I K _ _ _ _ _]. subst sorted_items idx. unfold touched.
  apply py_range_resolves. lia.
Qed.

Lemma touched_cases idx curr rest st :
  (0 <= idx)%Z ->
  (touched idx (curr :: rest) st = [] /\ (st_k st <= idx)%Z) \/
  (exists rs, touched idx (curr :: rest) st = curr :: rs /\
              (idx < st_k st)%Z /\ incl rs rest).
Proof.
  intros I. unfold touched.
  destruct (Z.to_nat (st_k st - idx)) as [|m] eqn:E; simpl.
  - left. split; [reflexivity | lia].
  - right. exists (firstn m rest). split; [reflexivity|]. split; [lia|].
    intros x. apply firstn_In.
Qed.

Lemma cost_le_ext cd cd' (l : list Item) :
  (forall r, In r l -> weight cd' r == weight cd r) ->
  StronglySorted (cost_le cd) l -> StronglySorted (cost_le cd') l.
Proof.
  intros E S. induction S as [|x l S IH F]; constructor.
  - apply IH. intros r I. apply E. right. exact I.
  - rewrite Forall_forall in F |- *. intros y Iy. unfold cost_le in *.
    rewrite (E x) by (left; reflexivity).
    rewrite (E y) by (right; exact Iy). apply F, Iy.
Qed.

(** One iteration, saturation branch. *)
Lemma loop_body_continue sorted_items done curr rest idx st :
  loop_inv gamma sorted_items done (curr :: rest) idx st ->
  weight (st_cost_dict st) curr * inject_Z (st_k st) <= st_budget st ->
  exists st',
    loop_body sorted_items idx curr st = Ok (st', Continue) /\
    st_budget st' ==
      st_budget st - weight (st_cost_dict st) curr * inject_Z (st_k st) /\
    st_k st' = (st_k st - 1)%Z /\
    (forall i, weight (st_histogram st') i ==
       weight (st_histogram st) i +
       (if (idx <? st_k st)%Z
        then if eq_dec i curr then weight (st_cost_dict st) curr else 0
        else 0)) /\
    hist_total (st_histogram st') ==
      hist_total (st_histogram st) +
      (if (idx <? st_k st)%Z then weight (st_cost_dict st) curr else 0) /\
    (forall i, In i (keys (st_histogram st')) ->
               In i sorted_items \/ In i (keys (st_histogram st))) /\
    loop_inv gamma sorted_items (done ++ [curr]) rest (idx + 1) st'.
Proof.
  intros Inv L. pose proof (touched_resolves Inv) as R.
  destruct Inv as [S I K ND Ks Hd So B].
  assert (Ic : In curr (keys (st_cost_dict st)))
    by (apply Ks; subst sorted_items; apply in_elt).
  assert (NI : ~ In curr rest)
    by (subst sorted_items; eapply NoDup_app_notin, ND).
  unfold loop_body. rewrite (dict_get_in _ _ Ic). cbn [bind].
  apply Qle_bool_iff in L. rewrite L.
  apply Qle_bool_iff in L.
  set (c := weight (st_cost_dict st) curr) in *.
  assert (Sat : exists h' cd',
    saturate sorted_items curr (py_range idx (st_k st))
      (st_histogram st) (st_cost_dict st) = Ok (h', cd') /\
    (forall i, weight h' i == weight (st_histogram st) i +
       (if (idx <? st_k st)%Z then if eq_dec i curr then c else 0 else 0)) /\
    (forall i, i <> curr -> weight cd' i == weight (st_cost_dict st) i) /\
    keys cd' = keys (st_cost_dict st) /\
    hist_total h' == hist_total (st_histogram st) +
       (if (idx <? st_k st)%Z then c else 0) /\
    (forall i, In i (keys h') ->
               In i sorted_items \/ In i (keys (st_histogram st)))).
  { destruct (touched_cases curr rest st (idx := idx)) as [[T Le]|(rs & T & Lt & Inc)];
      [lia | |]; rewrite T in R.
    - inversion R as [E|]; subst. cbn [saturate].
      exists (st_histogram st), (st_cost_dict st).
      destruct (Z.ltb_spec (Z.of_nat (length done)) (st_k st)); [lia|].
      split; [reflexivity|]. split; [intros i; qlra|].
      split; [reflexivity|]. split; [reflexivity|]. split; [qlra | auto].
    - inversion R as [|j r js rs' Hj Hrs E1 E2]; subst r rs'.
      destruct (saturate_first j (st_histogram st) (st_cost_dict st)
                  Hj Hrs Ic)
        as (h' & cd' & E & W & C & K' & T' & I').
      { intros r Ir. apply Ks. subst sorted_items.
        apply in_or_app. right. right. apply Inc, Ir. }
      exists h', cd'. split; [exact E|].
      destruct (Z.ltb_spec idx (st_k st)); [|lia].
      split; [exact W|]. split.
      + intros i N. rewrite C. destruct (eq_dec i curr);
          [contradiction | reflexivity].
      + split; [exact K'|]. split; [exact T'|].
        intros i Ii. apply I' in Ii. destruct Ii as [->|[Ii|Ii]]; auto.
        * left. subst sorted_items. apply in_elt.
        * left. subst sorted_items. apply in_or_app. right. right.
          apply Inc, Ii. }
  destruct Sat as (h' & cd' & E & W & C & K' & T' & I').
  rewrite E. cbn [bind fst snd].
  eexists. split; [reflexivity|]. cbn [st_budget st_k st_histogram].
  split; [reflexivity|]. split; [reflexivity|]. split; [exact W|].
  split; [exact T'|]. split; [exact I'|].
  constructor; cbn [st_budget st_k st_histogram st_cost_dict].
  - rewrite S, <- app_assoc. reflexivity.
  - rewrite length_app. simpl. lia.
  - rewrite K. simpl length. lia.
  - exact ND.
  - rewrite K'. exact Ks.
  - intros r Ir. assert (N : r <> curr) by congruence.
    destruct (Hd r (or_intror Ir)) as [G P].
    rewrite W, (C r N). destruct (idx <? st_k st)%Z;
      [destruct (eq_dec r curr); [contradiction|]|]; split; qlra.
  - apply StronglySorted_inv in So. destruct So as [So _].
    apply (cost_le_ext (cd := st_cost_dict st)); [|exact So].
    intros r Ir. apply C. congruence.
  - qlra.
Qed.

(** One iteration, exhaustion branch. *)
Lemma loop_body_break sorted_items done curr rest idx st :
  loop_inv gamma sorted_items done (curr :: rest) idx st ->
  st_budget st < weight (st_cost_dict st) curr * inject_Z (st_k st) ->
  exists h',
    loop_body sorted_items idx curr st =
      Ok (mk_alloc h' (st_cost_dict st) (st_budget st) (st_k st), Break) /\
    (forall i, weight h' i ==
       weight (st_histogram st) i +
       (if in_dec eq_dec i (touched idx (curr :: rest) st)
        then st_budget st / inject_Z (st_k st) else 0)) /\
    hist_total h' ==
      hist_total (st_histogram st) +
      inject_Z (Z.of_nat (length (touched idx (curr :: rest) st))) *
      (st_budget st / inject_Z (st_k st)) /\
    (forall i, In i (keys h') ->
               In i sorted_items \/ In i (keys (st_histogram st))).
Proof.
  intros Inv L. pose proof (touched_resolves Inv) as R.
  destruct Inv as [S I K ND Ks Hd So B].
  assert (Ic : In curr (keys (st_cost_dict st)))
    by (apply Ks; subst sorted_items; apply in_elt).
  unfold loop_body. rewrite (dict_get_in _ _ Ic). cbn [bind].
  assert (L' : Qle_bool (weight (st_cost_dict st) curr * inject_Z (st_k st))
                 (st_budget st) = false).
  { apply not_true_iff_false. rewrite Qle_bool_iff. apply Qlt_not_le, L. }
  rewrite L'.
  destruct (spread_spec (st_budget st) R (k := st_k st)) with
    (h := st_histogram st) as (h' & E & W & T & I').
  - rewrite K. simpl length. lia.
  - apply NoDup_firstn. subst sorted_items. eapply NoDup_app_r, ND.
  - rewrite E. cbn [bind]. exists h'. split; [reflexivity|].
    split; [exact W|]. split; [exact T|].
    intros i Ii. apply I' in Ii. destruct Ii as [Ii|Ii]; auto.
    left. subst sorted_items. apply in_or_app. right.
    apply firstn_In in Ii. exact Ii.
Qed.

(** The whole loop from any state that satisfies the invariant. *)
Lemma water_fill_spec sorted_items : forall rest done idx st,
  loop_inv gamma sorted_items done rest idx st ->
  exists st',
    water_fill sorted_items idx rest st = Ok st' /\
    0 <= st_budget st' /\
    hist_total (st_histogram st') <=
      hist_total (st_histogram st) + st_budget st /\
    (forall i, weight (st_histogram st) i <= weight (st_histogram st') i) /\
    (forall i, In i rest -> weight (st_histogram st') i <= gamma) /\
    (forall i, ~ In i rest ->
               weight (st_histogram st') i == weight (st_histogram st) i) /\
    (forall i, In i (keys (st_histogram st')) ->
               In i sorted_items \/ In i (keys (st_histogram st))).
Proof.
  induction rest as [|curr rest IH]; intros done idx st Inv.
  - exists st. cbn [water_fill]. pose proof (inv_budget Inv).
    split; [reflexivity|]. split; [assumption|]. split; [qlra|].
    split; [intros i; qlra|]. split; [intros i []|].
    split; [reflexivity | auto].
  - set (c := weight (st_cost_dict st) curr).
    destruct (inv_head Inv curr (or_introl eq_refl)) as [G P]. fold c in G, P.
    assert (K : (1 <= st_k st)%Z) by (rewrite (inv_k Inv); simpl length; lia).
    pose proof (inv_budget Inv) as B.
    assert (I0 : (0 <= idx)%Z) by (rewrite (inv_idx Inv); lia).
    assert (ND : NoDup (curr :: rest)).
    { pose proof (inv_nodup Inv) as N. rewrite (inv_split Inv) in N.
      eapply NoDup_app_r, N. }
    cbn [water_fill].
    destruct (Qlt_le_dec (st_budget st) (c * inject_Z (st_k st))) as [Lt|Le].
    + destruct (loop_body_break Inv Lt) as (h' & E & W & T & I').
      rewrite E. cbn [bind fst snd]. eexists. split; [reflexivity|].
      cbn [st_budget st_histogram].
      pose proof (@share_nonneg _ _ B K) as D.
      pose proof (@share_lt _ _ _ K Lt) as D'.
      split; [exact B|]. split; [|split; [|split; [|split]]].
      * rewrite T. apply Qplus_le_r. apply share_le; [exact B | | exact K].
        unfold touched. rewrite length_firstn, (inv_k Inv). lia.
      * intros i. rewrite W. destruct (in_dec _ _ _); qlra.
      * intros i Ii. rewrite W.
        destruct (inv_head Inv i Ii) as [Gi Pi].
        assert (Ci : c <= weight (st_cost_dict st) i).
        { destruct Ii as [<-|Ii]; [unfold c; qlra|].
          pose proof (inv_sorted Inv) as So.
          apply StronglySorted_inv in So. destruct So as [_ F].
          rewrite Forall_forall in F. apply (F i Ii). }
        destruct (in_dec _ _ _); qlra.
      * intros i Ni. rewrite W.
        destruct (in_dec eq_dec i (touched idx (curr :: rest) st)) as [Ii|_];
          [|qlra].
        exfalso. apply Ni. apply firstn_In in Ii. exact Ii.
      * exact I'.
    + destruct (loop_body_continue Inv Le)
        as (st1 & E & B1 & K1 & W & T & I' & Inv1).
      rewrite E. cbn [bind fst snd].
      destruct (IH _ _ _ Inv1) as (st' & E' & B' & T' & M' & G' & U' & I'').
      exists st'. split; [exact E'|]. split; [exact B'|].
      pose proof (@scale_ge _ _ (Qlt_le_weak _ _ P) K) as Sc. fold c in Sc.
      split; [|split; [|split; [|split]]].
      * rewrite T in T'. fold c in B1, T'.
        destruct (idx <? st_k st)%Z; qlra.
      * intros i. specialize (M' i). rewrite W in M'. fold c in M'.
        destruct (idx <? st_k st)%Z; [destruct (eq_dec i curr)|]; qlra.
      * intros i [<-|Ii]; [|apply G', Ii].
        inversion ND as [|? ? NI _]; subst.
        rewrite (U' curr NI), W. fold c.
        destruct (idx <? st_k st)%Z; [destruct (eq_dec curr curr)|]; qlra.
      * intros i Ni. rewrite U' by (intros Ii; apply Ni; right; exact Ii).
        rewrite W. destruct (idx <? st_k st)%Z; [|qlra].
        destruct (eq_dec i curr) as [->|_]; [|qlra].
        exfalso. apply Ni. left. reflexivity.
      * intros i Ii. apply I'' in Ii. destruct Ii as [Ii|Ii]; auto.
Qed.

(** Line 81 is entered in a state that satisfies the invariant. *)
Lemma alloc_init_inv items h :
  let st := alloc_init gamma items h in
  loop_inv gamma (sorted_items_of st) [] (sorted_items_of st) 0 st.
Proof.
  intros st.
  destruct (build_costs_spec gamma items h) as (W & T & I & N & _ & ND & C).
  destruct (sorted_keys_spec _ ND) as (P & ND' & So).
  constructor; cbn [st_budget st_k st_histogram st_cost_dict st alloc_init].
  - reflexivity.
  - reflexivity.
  - unfold sorted_items_of. cbn [st_cost_dict st alloc_init].
    rewrite (Permutation_length P). unfold keys. rewrite length_map.
    reflexivity.
  - exact ND'.
  - intros r Ir. apply (Permutation_in _ P), Ir.
  - intros r Ir. apply (Permutation_in _ P) in Ir.
    destruct (C r Ir) as [E L]. rewrite W, E. split; qlra.
  - exact So.
  - qlra.
Qed.

(** Every state the loop goes through satisfies the invariant. *)
Lemma reaches_inv sorted_items st0 idx rest st :
  loop_inv gamma sorted_items [] sorted_items 0 st0 ->
  reaches sorted_items st0 idx rest st ->
  exists done, loop_inv gamma sorted_items done rest idx st.
Proof.
  intros Inv0 R. induction R as [|idx curr rest st st' R IH E].
  - exists []. exact Inv0.
  - destruct IH as [done Inv].
    destruct (Qlt_le_dec (st_budget st)
                (weight (st_cost_dict st) curr * inject_Z (st_k st)))
      as [Lt|Le].
    + destruct (loop_body_break Inv Lt) as (h' & E' & _).
      rewrite E' in E. discriminate.
    + destruct (loop_body_continue Inv Le) as (st1 & E' & _ & _ & _ & _ & _ & Inv1).
      rewrite E' in E. inversion E; subst. exists (done ++ [curr]). exact Inv1.
Qed.

(** Every iteration returns normally, whichever branch it takes. *)
Lemma loop_body_total sorted_items done curr rest idx st :
  loop_inv gamma sorted_items done (curr :: rest) idx st ->
  exists out, loop_body sorted_items idx curr st = Ok out /\
              0 <= st_budget (fst out).
Proof.
  intros Inv.
  destruct (Qlt_le_dec (st_budget st)
              (weight (st_cost_dict st) curr * inject_Z (st_k st)))
    as [Lt|Le].
  - destruct (loop_body_break Inv Lt) as (h' & E & _).
    eexists. split; [exact E|]. apply (inv_budget Inv).
  - destruct (loop_body_continue Inv Le) as (st1 & E & _ & _ & _ & _ & _ & Inv1).
    eexists. split; [exact E|]. apply (inv_budget Inv1).
Qed.

End WaterFill.

(** ** The keys of the histogram *)

Section Keys.

Context {Item : Type} `{EqDec Item}.

Implicit Types (d h cd : dict (Item := Item)) (i r curr : Item)
  (st : alloc_state (Item := Item)).

Lemma grows_refl h : grows h h.
Proof. split; auto. Qed.

Lemma grows_trans h1 h2 h3 : grows h1 h2 -> grows h2 h3 -> grows h1 h3.
Proof. intros [A B] [C D]. split; auto. Qed.

Lemma grows_add h i v : grows h (hist_add h i v).
Proof.
  split; [intros j Ij; apply in_keys_add; auto | apply nodup_keys_add].
Qed.

Lemma saturate_grows sorted_items curr : forall js h cd h' cd',
  saturate sorted_items curr js h cd = Ok (h', cd') -> grows h h'.
Proof.
  induction js as [|j js IH]; intros h cd h' cd' E; cbn [saturate] in E.
  - inversion E; subst. apply grows_refl.
  - apply bind_Ok in E. destruct E as (r & _ & E).
    apply bind_Ok in E. destruct E as (c & _ & E).
    apply bind_Ok in E. destruct E as (w & _ & E).
    apply bind_Ok in E. destruct E as (c' & _ & E).
    eapply grows_trans; [apply grows_add | eapply IH, E].
Qed.

Lemma spread_grows sorted_items budget k : forall js h h',
  spread sorted_items js budget k h = Ok h' -> grows h h'.
Proof.
  induction js as [|j js IH]; intros h h' E; cbn [spread] in E.
  - inversion E; subst. apply grows_refl.
  - apply bind_Ok in E. destruct E as (r & _ & E).
    apply bind_Ok in E. destruct E as (d & _ & E).
    eapply grows_trans; [apply grows_add | eapply IH, E].
Qed.

Lemma loop_body_grows sorted_items idx curr st out :
  loop_body sorted_items idx curr st = Ok out ->
  grows (st_histogram st) (st_histogram (fst out)).
Proof.
  unfold loop_body. intros E.
  apply bind_Ok in E. destruct E as (c & _ & E).
  destruct (Qle_bool _ _).
  - apply bind_Ok in E. destruct E as ([h' cd'] & E1 & E).
    inversion E; subst. cbn. eapply saturate_grows, E1.
  - apply bind_Ok in E. destruct E as (h' & E1 & E).
    inversion E; subst. cbn. eapply spread_grows, E1.
Qed.

Lemma water_fill_grows sorted_items : forall rest idx st st',
  water_fill sorted_items idx rest st = Ok st' ->
  grows (st_histogram st) (st_histogram st').
Proof.
  induction rest as [|curr rest IH]; intros idx st st' E;
    cbn [water_fill] in E.
  - inversion E; subst. apply grows_refl.
  - apply bind_Ok in E. destruct E as (out & E1 & E).
    apply loop_body_grows in E1.
    destruct (snd out).
    + eapply grows_trans; [exact E1 | eapply IH, E].
    + inversion E; subst. exact E1.
Qed.

End Keys.

(** ** One user's allocation *)

Section AllocateUser.

Context {Item : Type} `{EqDec Item}.

Implicit Types (h : dict (Item := Item)) (i : Item).

Lemma allocate_user_spec gamma (items : list Item) h :
  exists h',
    allocate_user gamma items h = Ok h' /\
    hist_total h' <= hist_total h + 1 /\
    (forall i, weight h i <= weight h' i) /\
    (forall i, weight h' i <= gamma \/ weight h' i == weight h i) /\
    (forall i, In i (keys h') <-> In i items \/ In i (keys h)) /\
    (NoDup (keys h) -> NoDup (keys h')).
Proof.
  pose proof (alloc_init_inv gamma items h) as Inv. cbv zeta in Inv.
  destruct (build_costs_spec gamma items h) as (W & T & I & N & Sub & ND & C).
  destruct (sorted_keys_spec _ ND) as (P & _ & _).
  destruct (water_fill_spec Inv) as (st' & E & B & T' & M & G & U & K).
  assert (Gr := E). apply water_fill_grows in Gr. destruct Gr as [Gk Gn].
  unfold allocate_user. rewrite E. cbn [bind]. exists (st_histogram st').
  cbn [st_histogram st_budget alloc_init] in *.
  split; [reflexivity|]. split; [rewrite T in T'; exact T'|].
  split; [intros i; rewrite <- W; apply M|]. split; [|split].
  - intros i.
    destruct (in_dec eq_dec i (sorted_items_of (alloc_init gamma items h)))
      as [Ii|Ni].
    + left. apply G, Ii.
    + right. rewrite (U i Ni). rewrite W. reflexivity.
  - intros i. split.
    + intros Ii. apply K in Ii. destruct Ii as [Ii|Ii]; [|apply I, Ii].
      left. apply Sub. apply (Permutation_in _ P), Ii.
    + intros Ii. apply Gk, I, Ii.
  - intros Nh. apply Gn, N, Nh.
Qed.

End AllocateUser.

(** ** Reservoir sampling *)

Lemma skipn_In {A : Type} (l : list A) (m : nat) (x : A) :
  In x (skipn m l) -> In x l.
Proof.
  revert m. induction l as [|y t IH]; intros [|m]; simpl; try tauto.
  intros I. right. apply (IH m I).
Qed.

Lemma py_assign_ok {A : Type} (l : list A) (m : Z) (x : A) :
  (0 <= m < Z.of_nat (length l))%Z ->
  exists l', py_assign l m x = Ok l' /\ length l' = length l /\
             forall y, In y l' -> y = x \/ In y l.
Proof.
  intros R. unfold py_assign.
  destruct (Z.ltb_spec m 0); [lia|].
  destruct (Z.ltb_spec m 0); [lia|].
  destruct (Z.leb_spec (Z.of_nat (length l)) m); [lia|]. cbn [orb].
  eexists. split; [reflexivity|]. split.
  - rewrite length_app. cbn [length]. rewrite length_firstn, length_skipn. lia.
  - intros y Iy. apply in_app_or in Iy. destruct Iy as [Iy|[<-|Iy]].
    + right. apply firstn_In in Iy. exact Iy.
    + left. reflexivity.
    + right. apply skipn_In in Iy. exact Iy.
Qed.

Section ReservoirFacts.

Context {A : Type}.
Variable entropy : nat -> Z.

(** A draw of [random.randint(0, i)] lies in [0..i]. *)
Lemma randint_range (n : nat) (i : Z) :
  (0 <= i)%Z -> (0 <= randint entropy n 0 i <= i)%Z.
Proof.
  intros I. unfold randint.
  pose proof (Z.mod_pos_bound (entropy n) (i - 0 + 1)). lia.
Qed.

Lemma reservoir_loop_spec (max_contrib : Z) :
  forall (rest : list A) (i : Z) (reservoir : list A) (s : nat),
  (0 <= i)%Z ->
  Z.of_nat (length reservoir) = Z.max 0 (Z.min i max_contrib) ->
  exists out s',
    reservoir_loop entropy max_contrib i rest reservoir s = Ok (out, s') /\
    Z.of_nat (length out) =
      Z.max 0 (Z.min (i + Z.of_nat (length rest)) max_contrib) /\
    forall x, In x out -> In x reservoir \/ In x rest.
Proof.
  induction rest as [|item rest IH]; intros i reservoir s I L;
    cbn [reservoir_loop].
  - exists reservoir, s. split; [reflexivity|].
    split; [cbn [length]; rewrite Z.add_0_r; exact L | auto].
  - destruct (Z.ltb_spec i max_contrib) as [Lt|Ge].
    + destruct (IH (i + 1)%Z (reservoir ++ [item]) s) as (out & s' & E & Lo & Io).
      * lia.
      * rewrite length_app. cbn [length]. lia.
      * exists out, s'. split; [exact E|]. split; [cbn [length]; lia|].
        intros x Ix. apply Io in Ix. rewrite in_app_iff in Ix. simpl in *.
        tauto.
    + pose proof (randint_range s I) as Rg.
      destruct (Z.ltb_spec (randint entropy s 0 i) max_contrib) as [Lm|Gm].
      * destruct (py_assign_ok reservoir item (m := randint entropy s 0 i))
          as (r' & E1 & L1 & I1); [lia|].
        rewrite E1. cbn [bind].
        destruct (IH (i + 1)%Z r' (S s)) as (out & s' & E & Lo & Io).
        -- lia.
        -- rewrite L1. lia.
        -- exists out, s'. split; [exact E|]. split; [cbn [length]; lia|].
           intros x Ix. apply Io in Ix. destruct Ix as [Ix|Ix]; simpl; auto.
           apply I1 in Ix. destruct Ix as [->|Ix]; auto.
      * destruct (IH (i + 1)%Z reservoir (S s)) as (out & s' & E & Lo & Io).
        -- lia.
        -- lia.
        -- exists out, s'. split; [exact E|]. split; [cbn [length]; lia|].
           intros x Ix. apply Io in Ix. simpl. tauto.
Qed.

Lemma reservoir_sample_spec (iterable : list A) (max_contrib : Z) (s : nat) :
  exists out s',
    reservoir_sample entropy iterable max_contrib s = Ok (out, s') /\
    Z.of_nat (length out) =
      Z.max 0 (Z.min (Z.of_nat (length iterable)) max_contrib) /\
    forall x, In x out -> In x iterable.
Proof.
  destruct (reservoir_loop_spec max_contrib iterable (i := 0) [] s)
    as (out & s' & E & L & I); [lia | cbn [length]; lia |].
  exists out, s'. split; [exact E|]. split; [rewrite L; f_equal|].
  intros x Ix. apply I in Ix. destruct Ix as [[]|Ix]. exact Ix.
Qed.

Lemma bound_contrib_spec (items : list A) (max_contrib : Z) (s : nat) :
  exists out s',
    bound_contrib entropy items max_contrib s = Ok (out, s') /\
    forall x, In x out -> In x items.
Proof.
  unfold bound_contrib. destruct (_ <? _)%Z.
  - destruct (reservoir_sample_spec items max_contrib s)
      as (out & s' & E & _ & I).
    exists out, s'. auto.
  - exists items, s. auto.
Qed.

End ReservoirFacts.

(** ** The reservoir slot by slot *)

Section SlotFacts.

Local Open Scope nat_scope.

(** [l[m] = x] writes slot [m] and leaves the other slots alone. *)
Lemma py_assign_nth {A : Type} (l : list A) (m : Z) (x : A) :
  (0 <= m < Z.of_nat (length l))%Z ->
  exists l', py_assign l m x = Ok l' /\ length l' = length l /\
             nth_error l' (Z.to_nat m) = Some x /\
             forall j, j <> Z.to_nat m -> nth_error l' j = nth_error l j.
Proof.
  intros R. unfold py_assign.
  destruct (Z.ltb_spec m 0); [lia|].
  destruct (Z.ltb_spec m 0); [lia|].
  destruct (Z.leb_spec (Z.of_nat (length l)) m); [lia|]. cbn [orb].
  set (k := Z.to_nat m). assert (K : k < length l) by lia.
  assert (F : length (firstn k l) = k) by (rewrite length_firstn; lia).
  eexists. split; [reflexivity|]. split; [|split].
  - rewrite length_app. cbn [length]. rewrite F, length_skipn. lia.
  - rewrite nth_error_app2 by lia. rewrite F, Nat.sub_diag. reflexivity.
  - intros j N. destruct (Nat.lt_ge_cases j k) as [Lt|Ge].
    + rewrite nth_error_app1 by lia. rewrite nth_error_firstn.
      destruct (Nat.ltb_spec j k); [reflexivity | lia].
    + rewrite nth_error_app2 by lia. rewrite F.
      replace (j - k) with (S (j - S k)) by lia. cbn [nth_error].
      rewrite nth_error_skipn. f_equal. lia.
Qed.

Lemma slot_source_lt (draw : nat -> Z) (k n j i : nat) :
  j < n -> slot_source draw k n j i -> i < n.
Proof. intros J [(I & _)|(-> & _)]; lia. Qed.

(** An item that makes no draw equal to [j] leaves the source of slot [j]
    as it is. *)
Lemma slot_source_keep (draw : nat -> Z) (k n j i : nat) :
  (k <= n -> draw n <> Z.of_nat j) ->
  slot_source draw k n j i -> slot_source draw k (S n) j i.
Proof.
  intros D [(I & E & L)|(-> & L)].
  - left. split; [lia|]. split; [exact E|]. intros i' Ri.
    destruct (Nat.eq_dec i' n) as [->|Ne]; [apply D; lia | apply L; lia].
  - right. split; [reflexivity|]. intros i' Ri.
    destruct (Nat.eq_dec i' n) as [->|Ne]; [apply D; lia | apply L; lia].
Qed.

End SlotFacts.

Section ReservoirSlots.

Local Open Scope nat_scope.

Context {A : Type}.
Variable entropy : nat -> Z.
Variable k : nat.
Variable s : nat.

(** The loop of lines 29-35, started after the items [done] with the
    reservoir these items leave, ends with the reservoir that
    [done ++ rest] leaves: every slot holds the item [slot_source] names,
    and one draw was made for every item of index [k] and above. *)
Lemma reservoir_loop_slots :
  forall (rest done reservoir : list A),
  length reservoir = Nat.min (length done) k ->
  (forall j, j < length reservoir ->
     exists i, slot_source (draw_of entropy k s) k (length done) j i /\
               nth_error reservoir j = nth_error done i) ->
  exists out,
    reservoir_loop entropy (Z.of_nat k) (Z.of_nat (length done)) rest
      reservoir (s + (length done - k)) =
    Ok (out, s + (length (done ++ rest) - k)) /\
    length out = Nat.min (length (done ++ rest)) k /\
    forall j, j < length out ->
      exists i,
        slot_source (draw_of entropy k s) k (length (done ++ rest)) j i /\
        nth_error out j = nth_error (done ++ rest) i.
Proof.
  induction rest as [|item rest IH]; intros done reservoir L P.
  - exists reservoir. rewrite app_nil_r. cbn [reservoir_loop].
    split; [reflexivity|]. split; [exact L | exact P].
  - assert (D1 : length (done ++ [item]) = S (length done))
      by (rewrite length_app; cbn [length]; lia).
    assert (Nx : (Z.of_nat (length done) + 1 =
                  Z.of_nat (length (done ++ [item])))%Z) by lia.
    assert (Ap : done ++ item :: rest = (done ++ [item]) ++ rest)
      by (rewrite <- app_assoc; reflexivity).
    cbn [reservoir_loop].
    destruct (Z.ltb_spec (Z.of_nat (length done)) (Z.of_nat k)) as [Lt|Ge].
    + (* the item is appended *)
      rewrite Nx, Ap.
      replace (s + (length done - k)) with (s + (length (done ++ [item]) - k))
        by lia.
      apply IH.
      * rewrite length_app. cbn [length]. lia.
      * intros j J. rewrite length_app in J. cbn [length] in J.
        destruct (Nat.eq_dec j (length reservoir)) as [->|Ne].
        -- exists (length done). split.
           ++ right. split; [lia|]. intros i' Ri. lia.
           ++ rewrite nth_error_app2 by lia. rewrite Nat.sub_diag.
              rewrite nth_error_app2 by lia. rewrite Nat.sub_diag.
              reflexivity.
        -- destruct (P j ltac:(lia)) as (i & S0 & E). exists i.
           assert (Il : i < length done)
             by (apply (@slot_source_lt (draw_of entropy k s) k
                          (length done) j i); [lia | exact S0]).
           split.
           ++ rewrite D1. apply slot_source_keep; [lia | exact S0].
           ++ rewrite nth_error_app1 by lia. rewrite nth_error_app1 by lia.
              exact E.
    + (* a draw is made *)
      assert (Dr : randint entropy (s + (length done - k)) 0
                     (Z.of_nat (length done)) =
                   draw_of entropy k s (length done)) by reflexivity.
      rewrite Dr. set (m := draw_of entropy k s (length done)).
      assert (Rm : (0 <= m <= Z.of_nat (length done))%Z)
        by (apply randint_range; lia).
      assert (Sx : S (s + (length done - k)) =
                   s + (length (done ++ [item]) - k)) by lia.
      destruct (Z.ltb_spec m (Z.of_nat k)) as [Lm|Gm].
      * (* the item replaces slot m *)
        destruct (@py_assign_nth _ reservoir m item ltac:(lia))
          as (r' & -> & Lr & Nm & No).
        cbn [bind]. rewrite Nx, Ap, Sx. apply IH.
        -- rewrite Lr, L, D1. lia.
        -- intros j J. rewrite Lr in J.
           destruct (Nat.eq_dec j (Z.to_nat m)) as [->|Ne].
           ++ exists (length done). split.
              ** left. rewrite D1. split; [lia|]. split; [fold m; lia|].
                 intros i' Ri. lia.
              ** rewrite Nm. rewrite nth_error_app2 by lia.
                 rewrite Nat.sub_diag. reflexivity.
           ++ destruct (P j J) as (i & S0 & E). exists i.
              assert (Il : i < length done)
             by (apply (@slot_source_lt (draw_of entropy k s) k
                          (length done) j i); [lia | exact S0]).
              split.
              ** rewrite D1. apply slot_source_keep; [|exact S0].
                 intros _. fold m. lia.
              ** rewrite No by exact Ne. rewrite nth_error_app1 by lia.
                 exact E.
      * (* the item is dropped *)
        rewrite Nx, Ap, Sx. apply IH.
        -- rewrite L, D1. lia.
        -- intros j J. destruct (P j J) as (i & S0 & E). exists i.
           assert (Il : i < length done)
             by (apply (@slot_source_lt (draw_of entropy k s) k
                          (length done) j i); [lia | exact S0]).
           split.
           ++ rewrite D1. apply slot_source_keep; [|exact S0].
              intros _. fold m. lia.
           ++ rewrite nth_error_app1 by lia. exact E.
Qed.

End ReservoirSlots.

(** ** The draws over a range of entropy words *)

Section DrawCounts.

Local Open Scope nat_scope.

Lemma count_draws_app (u v : list Z) (i m : Z) :
  count_draws (u ++ v) i m = count_draws u i m + count_draws v i m.
Proof. unfold count_draws. rewrite filter_app, length_app. reflexivity. Qed.

(** In [len] consecutive words from [a] on, the word [a + t] is met once
    when [t < len] and never otherwise. *)
Lemma count_eq_seq (f : Z -> bool) (t : nat) :
  forall (len a : nat),
  (forall w, a <= w < a + len -> f (Z.of_nat w) = Nat.eqb w (a + t)) ->
  length (filter f (map Z.of_nat (seq a len))) = if t <? len then 1 else 0.
Proof.
  intros len. revert t. induction len as [|len IH]; intros t a F.
  - reflexivity.
  - cbn [seq map filter]. rewrite (F a) by lia.
    destruct t as [|t].
    + rewrite Nat.add_0_r, Nat.eqb_refl. cbn [length].
      rewrite (IH (S len) (S a)).
      * destruct (Nat.ltb_spec (S len) len); [lia | reflexivity].
      * intros w W. rewrite F by lia.
        destruct (Nat.eqb_spec w (a + 0)), (Nat.eqb_spec w (S a + S len));
          lia || reflexivity.
    + destruct (Nat.eqb_spec a (a + S t)); [lia|].
      rewrite (IH t (S a)).
      * destruct (Nat.ltb_spec t len), (Nat.ltb_spec (S t) (S len));
          lia || reflexivity.
      * intros w W. rewrite F by lia.
        destruct (Nat.eqb_spec w (a + S t)), (Nat.eqb_spec w (S a + t));
          lia || reflexivity.
Qed.

(** Over [N] full periods of [i + 1] consecutive entropy words,
    [random.randint(0, i)] takes every value of [0..i] exactly [N]
    times. *)
Lemma count_draws_periods (i m : Z) :
  (0 <= m <= i)%Z ->
  forall N : nat,
  count_draws (map Z.of_nat (seq 0 (N * Z.to_nat (i + 1)))) i m = N.
Proof.
  intros R. set (p := Z.to_nat (i + 1)).
  induction N as [|N IH]; [reflexivity|].
  replace (S N * p) with (N * p + p) by lia.
  rewrite seq_app, map_app, count_draws_app, IH. cbn [Nat.add].
  unfold count_draws.
  rewrite (@count_eq_seq _ (Z.to_nat m) p (N * p)).
  - destruct (Nat.ltb_spec (Z.to_nat m) p); lia.
  - intros w W. unfold randint.
    replace (i - 0 + 1)%Z with (Z.of_nat p) by lia.
    assert (E : (Z.of_nat w = Z.of_nat N * Z.of_nat p +
                 Z.of_nat (w - N * p))%Z) by lia.
    assert (Md : (Z.of_nat w mod Z.of_nat p = Z.of_nat (w - N * p))%Z).
    { rewrite E at 1. rewrite Z.add_comm, Z.mod_add by lia.
      apply Z.mod_small. lia. }
    rewrite Md.
    destruct (Z.eqb_spec (0 + Z.of_nat (w - N * p)) m),
             (Nat.eqb_spec w (N * p + Z.to_nat m)); lia || reflexivity.
Qed.

End DrawCounts.

(** ** The loop over the users and the release loop *)

Section MechanismFacts.

Context {Item : Type} `{EqDec Item}.
Variable hash_str : Z -> Z.
Variable entropy : nat -> Z.
Variable laplace : nat -> Q.

Implicit Types (h : dict (Item := Item)) (i item : Item).

Lemma user_step_spec gamma max_contrib (st : dict * nat) (group : list Item) :
  exists st',
    user_step entropy gamma max_contrib st group = Ok st' /\
    hist_total (fst st') <= hist_total (fst st) + 1 /\
    (forall i, weight (fst st) i <= weight (fst st') i) /\
    (forall i, weight (fst st') i <= gamma \/
               weight (fst st') i == weight (fst st) i) /\
    (NoDup (keys (fst st)) -> NoDup (keys (fst st'))).
Proof.
  unfold user_step.
  destruct (bound_contrib_spec entropy group max_contrib (snd st))
    as (out & s' & E & _).
  rewrite E. cbn [bind fst snd].
  destruct (allocate_user_spec gamma out (fst st))
    as (h' & E' & T & M & G & _ & N).
  rewrite E'. cbn [bind]. eexists. split; [reflexivity|]. cbn [fst].
  auto.
Qed.

Lemma process_groups_spec gamma max_contrib :
  forall (groups : list (list Item)) (st : dict * nat),
  exists st',
    process_groups entropy gamma max_contrib groups st = Ok st' /\
    (forall i, weight (fst st) i <= weight (fst st') i) /\
    (forall i, weight (fst st') i <= gamma \/
               weight (fst st') i == weight (fst st) i) /\
    (NoDup (keys (fst st)) -> NoDup (keys (fst st'))).
Proof.
  induction groups as [|group groups IH]; intros st; cbn [process_groups].
  - exists st. split; [reflexivity|]. split; [intros i; qlra|].
    split; [right; reflexivity | auto].
  - destruct (user_step_spec gamma max_contrib st group)
      as (st1 & E1 & _ & M1 & G1 & N1).
    rewrite E1. cbn [bind].
    destruct (IH st1) as (st' & E & M & G & N).
    exists st'. split; [exact E|]. split; [|split].
    + intros i. specialize (M1 i). specialize (M i). qlra.
    + intros i. destruct (G i) as [L|Q]; [left; exact L|].
      destruct (G1 i) as [L1|Q1]; [left | right]; qlra.
    + auto.
Qed.

Lemma build_histogram_spec gamma max_contrib (df : list (row (Item := Item))) :
  exists h,
    build_histogram hash_str entropy gamma max_contrib df = Ok h /\
    NoDup (keys h) /\
    (forall i, 0 <= weight h i) /\
    (forall i, weight h i <= gamma \/ weight h i == 0).
Proof.
  unfold build_histogram.
  destruct (process_groups_spec gamma max_contrib
              (map snd (groupby (sort_values_hash hash_str df)))
              ([], 0%nat)) as (st' & E & M & G & N).
  rewrite E. cbn [bind]. exists (fst st'). split; [reflexivity|].
  split; [apply N; constructor|]. split; [intros i; apply (M i)|].
  intros i. destruct (G i) as [L|Q]; [left; exact L | right; exact Q].
Qed.

(** The release loop: the key at position [m] of the snapshot receives
    the sample of index [n + m]. *)
Lemma release_loop_spec rho : forall (ks : list Item) n h items,
  NoDup ks ->
  forall item,
    In item (snd (release_loop laplace rho n ks h items)) <->
    In item items \/
    exists m, nth_error ks m = Some item /\
              rho < weight h item + laplace (n + m)%nat.
Proof.
  induction ks as [|k ks IH]; intros n h items ND item;
    cbn [release_loop].
  - cbn [snd]. split; [auto | intros [I|(m & E & _)]; [exact I|]].
    destruct m; discriminate.
  - inversion ND as [|? ? NI ND']; subst.
    set (h1 := hist_add h k (laplace n)).
    pose proof (hist_read_fst h1 k) as F.
    destruct (hist_read h1 k) as [w h2] eqn:R. cbn [fst] in F.
    assert (W2 : forall j, weight h2 j = weight h1 j).
    { intros j. replace h2 with (snd (hist_read h1 k))
        by (rewrite R; reflexivity). apply weight_hist_read. }
    rewrite (IH (S n) h2 _ ND' item). subst w. unfold h1 at 1.
    rewrite weight_add_eq. split.
    + intros [I|(m & E & L)].
      * destruct (Qltb rho (weight h k + laplace n)) eqn:B; [|auto].
        apply in_app_or in I. destruct I as [I|[<-|[]]]; [auto|].
        right. exists 0%nat. rewrite Nat.add_0_r. apply Qltb_lt in B.
        split; [reflexivity | exact B].
      * right. exists (S m). split; [exact E|].
        assert (N : item <> k)
          by (intros ->; apply NI; eapply nth_error_In, E).
        rewrite W2 in L. unfold h1 in L.
        rewrite weight_add_neq in L by exact N.
        rewrite Nat.add_succ_r. exact L.
    + intros [I|(m & E & L)].
      * left. destruct (Qltb rho _); [apply in_or_app|]; auto.
      * destruct m as [|m].
        -- inversion E; subst. rewrite Nat.add_0_r in L.
           apply Qltb_lt in L. rewrite L. left. apply in_or_app.
           right. left. reflexivity.
        -- right. exists m. split; [exact E|].
           assert (N : item <> k)
             by (intros ->; apply NI; eapply nth_error_In, E).
           rewrite W2. unfold h1. rewrite weight_add_neq by exact N.
           rewrite Nat.add_succ_r in L. exact L.
Qed.

Lemma release_spec rho h :
  NoDup (keys h) ->
  forall item,
    In item (release laplace rho h) <->
    exists n, nth_error (keys h) n = Some item /\
              rho < weight h item + laplace n.
Proof.
  intros ND item. unfold release.
  rewrite (release_loop_spec rho 0 h [] ND item). cbn [In plus].
  split; [intros [[]|E]; exact E | auto].
Qed.

End MechanismFacts.

(** * The claims *)

Section AllocationClaims.

Context {Item : Type} `{EqDec Item}.

Implicit Types (h : dict (Item := Item)) (i : Item).

(** C1 (per-user budget conservation).  One user's allocation step returns
    normally, and the sum of the increments it applies to the histogram,
    over both branches of the loop, is at most [1].  Every write of the
    step is a [histogram[item] += d], which raises the total weight by
    exactly [d] ([total_add]), so the sum of the increments is the growth
    of the total weight. *)
Theorem C1_user_increments_at_most_one (gamma : Q) (items : list Item) h :
  exists h',
    allocate_user gamma items h = Ok h' /\
    hist_total h' - hist_total h <= 1.
Proof.
  destruct (allocate_user_spec gamma items h) as (h' & E & T & _).
  exists h'. split; [exact E | qlra].
Qed.

(** C3 (monotonicity).  Histogram weights never decrease: an iteration of
    the allocation loop, entered in any state the loop can be in, leaves
    every weight at least as large as it found it; so does the allocation
    step of a user, and so does the loop over all the users. *)
Theorem C3_weights_never_decrease (gamma : Q) :
  (forall (items : list Item) h idx curr rest st out,
     let st0 := alloc_init gamma items h in
     reaches (sorted_items_of st0) st0 idx (curr :: rest) st ->
     loop_body (sorted_items_of st0) idx curr st = Ok out ->
     forall i, weight (st_histogram st) i <= weight (st_histogram (fst out)) i) /\
  (forall (items : list Item) h,
     exists h', allocate_user gamma items h = Ok h' /\
                forall i, weight h i <= weight h' i) /\
  (forall entropy max_contrib (groups : list (list Item)) (st : dict * nat),
     exists st',
       process_groups entropy gamma max_contrib groups st = Ok st' /\
       forall i, weight (fst st) i <= weight (fst st') i).
Proof.
  split; [|split].
  - intros items h idx curr rest st out st0 R E i.
    destruct (reaches_inv (alloc_init_inv gamma items h) R) as [done Inv].
    destruct (inv_head Inv curr (or_introl eq_refl)) as [_ P].
    pose proof (inv_budget Inv) as B.
    assert (K : (1 <= st_k st)%Z) by (rewrite (inv_k Inv); simpl length; lia).
    destruct (Qlt_le_dec (st_budget st)
                (weight (st_cost_dict st) curr * inject_Z (st_k st)))
      as [Lt|Le].
    + destruct (loop_body_break Inv Lt) as (h' & E' & W & _).
      fold st0 in E'. rewrite E' in E. inversion E; subst out.
      cbn [fst st_histogram]. rewrite W.
      pose proof (@share_nonneg _ _ B K). destruct (in_dec _ _ _); qlra.
    + destruct (loop_body_continue Inv Le) as (st1 & E' & _ & _ & W & _).
      fold st0 in E'. rewrite E' in E. inversion E; subst out.
      cbn [fst]. rewrite W.
      destruct (idx <? st_k st)%Z; [destruct (eq_dec i curr)|]; qlra.
  - intros items h.
    destruct (allocate_user_spec gamma items h) as (h' & E & _ & M & _).
    exists h'. auto.
  - intros entropy max_contrib groups st.
    destruct (process_groups_spec entropy gamma max_contrib groups st)
      as (st' & E & M & _).
    exists st'. auto.
Qed.

(** C4 (saturation cap).  No allocation step raises a weight above
    [gamma]: after a user's step every weight is at most [gamma] or is
    what it was before the step.  Hence, [gamma] being non-negative (as it
    is for every valid parameter triple), every weight of the histogram
    built from any table is at most [gamma] before noise is added. *)
Theorem C4_saturation_cap (gamma : Q) :
  0 <= gamma ->
  (forall (items : list Item) h,
     exists h', allocate_user gamma items h = Ok h' /\
                forall i, weight h' i <= gamma \/ weight h' i == weight h i) /\
  (forall hash_str entropy max_contrib (df : list (row (Item := Item))),
     exists h,
       build_histogram hash_str entropy gamma max_contrib df = Ok h /\
       forall i, weight h i <= gamma).
Proof.
  intros G. split.
  - intros items h.
    destruct (allocate_user_spec gamma items h) as (h' & E & _ & _ & C & _).
    exists h'. auto.
  - intros hash_str entropy max_contrib df.
    destruct (build_histogram_spec hash_str entropy gamma max_contrib df)
      as (h & E & _ & _ & C).
    exists h. split; [exact E|]. intros i. destruct (C i); qlra.
Qed.

(** C10 (safety of the loop).  In every state in which the loop of one
    user can be at the head of an iteration, [budget] is non-negative and
    [k] is at least [1]; the iteration then returns normally, so the
    division [budget / k] of the exhaustion branch never raises
    [ZeroDivisionError], and leaves [budget] non-negative.  The whole
    allocation step returns normally. *)
Theorem C10_budget_nonneg_and_k_positive (gamma : Q) (items : list Item) h :
  let st0 := alloc_init gamma items h in
  (forall idx curr rest st,
     reaches (sorted_items_of st0) st0 idx (curr :: rest) st ->
     0 <= st_budget st /\ (1 <= st_k st)%Z /\
     exists out, loop_body (sorted_items_of st0) idx curr st = Ok out /\
                 0 <= st_budget (fst out)) /\
  exists h', allocate_user gamma items h = Ok h'.
Proof.
  intros st0. split.
  - intros idx curr rest st R.
    destruct (reaches_inv (alloc_init_inv gamma items h) R) as [done Inv].
    split; [apply (inv_budget Inv)|].
    split; [rewrite (inv_k Inv); simpl length; lia|].
    apply (loop_body_total Inv).
  - destruct (allocate_user_spec gamma items h) as (h' & E & _).
    exists h'. exact E.
Qed.

End AllocationClaims.

Lemma C3_weights_never_decrease_witness :
  let st0 := alloc_init (1 # 4) [1; 2; 3]%nat [] in
  exists out,
    loop_body (sorted_items_of st0) 0 1%nat st0 = Ok out /\
    forall i, weight (st_histogram st0) i <= weight (st_histogram (fst out)) i.
Proof.
  intros st0. eexists. split; [vm_compute; reflexivity|].
  apply (proj1 (C3_weights_never_decrease (Item := nat) (1 # 4))
           [1; 2; 3]%nat [] 0%Z 1%nat [2; 3]%nat st0 _).
  - apply reaches_first.
  - vm_compute. reflexivity.
Defined.

Lemma C4_saturation_cap_witness :
  0 <= 27 # 2 /\
  exists h,
    build_histogram (fun x => x) (fun _ => 0%Z) (27 # 2) 2
      [(1%Z, "A"%string); (1%Z, "B"%string); (2%Z, "A"%string)] = Ok h /\
    forall i, weight h i <= 27 # 2.
Proof.
  assert (G : 0 <= 27 # 2) by (unfold Qle; simpl; lia).
  split; [exact G|].
  apply (proj2 (C4_saturation_cap (Item := String.string) G)).
Defined.

Lemma C10_budget_nonneg_and_k_positive_witness :
  exists st,
    reaches [1; 2; 3]%nat (alloc_init (1 # 4) [1; 2; 3]%nat []) 1
      [2; 3]%nat st /\
    0 <= st_budget st /\ (1 <= st_k st)%Z /\
    exists out, loop_body [1; 2; 3]%nat 1 2%nat st = Ok out /\
                0 <= st_budget (fst out).
Proof.
  assert (R : exists st,
    reaches [1; 2; 3]%nat (alloc_init (1 # 4) [1; 2; 3]%nat []) (0 + 1)
      [2; 3]%nat st).
  { eexists. eapply reaches_next; [apply reaches_first|].
    vm_compute. reflexivity. }
  destruct R as [st R]. exists st. split; [exact R|].
  apply (proj1 (C10_budget_nonneg_and_k_positive (1 # 4) [1; 2; 3]%nat [])
           1%Z 2%nat [3]%nat st R).
Defined.

Section ReservoirClaim.

Context {A : Type}.
Variable entropy : nat -> Z.

(** C6 (contribution bound).  For [max_contrib >= 1] the bounding step
    returns normally and attributes [min(n, max_contrib)] items to the
    user, all of them taken from the input: a list of at most
    [max_contrib] items is passed through unchanged, and a longer one goes
    through [reservoir_sample], which returns exactly [max_contrib] items.

    The sampler is determined slot by slot: on a longer list it makes one
    draw for each item of index [max_contrib] and above, and slot [j] of
    its result holds the last item whose draw was [j], or the item of
    index [j] when no draw was [j].

    One step of its loop on a reservoir of [min(i, max_contrib)] items:
    the item of index [i < max_contrib] is appended and no draw is made;
    otherwise one draw [m] is made, and for [m < max_contrib] the item is
    written to slot [m], every other slot staying as it was, while for
    [m >= max_contrib] the reservoir is unchanged.

    The draw [m] for index [i] is the entropy word modulo [i + 1], a value
    of [0..i]; over any [N] full periods of [i + 1] consecutive words it
    takes each value of [0..i] exactly [N] times. *)
Theorem C6_contribution_bound (items : list A) (max_contrib : Z) (s : nat) :
  (1 <= max_contrib)%Z ->
  (exists out s',
     bound_contrib entropy items max_contrib s = Ok (out, s') /\
     Z.of_nat (length out) = Z.min (Z.of_nat (length items)) max_contrib /\
     (forall x, In x out -> In x items) /\
     ((Z.of_nat (length items) <= max_contrib)%Z -> out = items) /\
     ((max_contrib < Z.of_nat (length items))%Z ->
      reservoir_sample entropy items max_contrib s = Ok (out, s') /\
      Z.of_nat (length out) = max_contrib)) /\
  ((max_contrib < Z.of_nat (length items))%Z ->
   exists out,
     reservoir_sample entropy items max_contrib s =
     Ok (out, (s + (length items - Z.to_nat max_contrib))%nat) /\
     length out = Z.to_nat max_contrib /\
     forall j, (j < Z.to_nat max_contrib)%nat ->
       exists i,
         slot_source (draw_of entropy (Z.to_nat max_contrib) s)
           (Z.to_nat max_contrib) (length items) j i /\
         nth_error out j = nth_error items i) /\
  (forall (i : Z) (item : A) (reservoir : list A) (n : nat),
     (0 <= i)%Z ->
     Z.of_nat (length reservoir) = Z.min i max_contrib ->
     let m := randint entropy n 0 i in
     exists reservoir' n',
       reservoir_loop entropy max_contrib i [item] reservoir n =
       Ok (reservoir', n') /\
       ((i < max_contrib)%Z -> reservoir' = reservoir ++ [item] /\ n' = n) /\
       ((max_contrib <= i)%Z ->
        n' = S n /\ length reservoir' = length reservoir /\
        ((m < max_contrib)%Z ->
         nth_error reservoir' (Z.to_nat m) = Some item /\
         forall j, j <> Z.to_nat m ->
                   nth_error reservoir' j = nth_error reservoir j) /\
        ((max_contrib <= m)%Z -> reservoir' = reservoir))) /\
  (forall (n : nat) (i : Z),
     (0 <= i)%Z ->
     (0 <= randint entropy n 0 i <= i)%Z /\
     randint entropy n 0 i = (entropy n mod (i + 1))%Z) /\
  (forall (i m : Z) (N : nat),
     (0 <= m <= i)%Z ->
     count_draws (map Z.of_nat (seq 0 (N * Z.to_nat (i + 1)))) i m = N).
Proof.
  intros M. split; [|split; [|split; [|split]]].
  - unfold bound_contrib.
    destruct (Z.ltb_spec max_contrib (Z.of_nat (length items))) as [Lt|Ge].
    + destruct (reservoir_sample_spec entropy items max_contrib s)
        as (out & s' & E & L & I).
      exists out, s'. split; [exact E|]. split; [lia|]. split; [exact I|].
      split; [lia|]. intros _. split; [exact E | lia].
    + exists items, s. split; [reflexivity|]. split; [lia|].
      split; [auto|]. split; [auto | lia].
  - intros Lt. set (k := Z.to_nat max_contrib).
    destruct (@reservoir_loop_slots A entropy k s items [] [])
      as (out & E & L & P).
    + reflexivity.
    + cbn [length]. intros j J. lia.
    + exists out. cbn [app length] in E, L, P.
      replace (Z.of_nat k) with max_contrib in E by lia.
      replace (s + (0 - k))%nat with s in E by lia.
      split; [exact E|]. split; [lia|].
      intros j J. apply P. lia.
  - intros i item reservoir n I L m. cbn [reservoir_loop].
    destruct (Z.ltb_spec i max_contrib) as [Lt|Ge].
    + exists (reservoir ++ [item]), n. split; [reflexivity|].
      split; [auto | lia].
    + assert (Rm : (0 <= m <= i)%Z) by (apply randint_range; exact I).
      fold m. destruct (Z.ltb_spec m max_contrib) as [Lm|Gm].
      * destruct (@py_assign_nth _ reservoir m item ltac:(lia))
          as (r' & -> & Lr & Nm & No).
        exists r', (S n). split; [reflexivity|]. split; [lia|].
        intros _. split; [reflexivity|]. split; [exact Lr|].
        split; [auto | lia].
      * exists reservoir, (S n). split; [reflexivity|]. split; [lia|].
        intros _. split; [reflexivity|]. split; [reflexivity|].
        split; [lia | auto].
  - intros n i I. split; [apply randint_range; exact I|].
    unfold randint. rewrite Z.add_0_l, Z.sub_0_r. reflexivity.
  - intros i m N R. apply count_draws_periods. exact R.
Qed.

End ReservoirClaim.

Lemma C6_contribution_bound_witness :
  (1 <= 2)%Z /\
  exists out s',
    bound_contrib (fun n => Z.of_nat n + 1)%Z
      ["A"; "B"; "C"; "D"; "E"; "F"]%string 2 0 = Ok (out, s') /\
    Z.of_nat (length out) = Z.min 6 2.
Proof.
  split; [lia|].
  destruct (proj1 (C6_contribution_bound (fun n => Z.of_nat n + 1)%Z
                     ["A"; "B"; "C"; "D"; "E"; "F"]%string 0
                     (max_contrib := 2) ltac:(lia)))
    as (out & s' & E & L & _).
  exists out, s'. split; [exact E | exact L].
Defined.

Section ReleaseClaim.

Context {Item : Type} `{EqDec Item}.
Variable hash_str : Z -> Z.
Variable entropy : nat -> Z.
Variable laplace : nat -> Q.

(** C5 (threshold correctness).  The histogram [h] that [policy_laplace]
    builds from any table has distinct keys; the [n]-th key of [h] is
    given the [n]-th noise sample, and an item is in the released list if
    and only if it is a key of [h] whose weight plus its sample is
    strictly greater than [rho].  So an item whose noisy weight equals
    [rho] is not released, and neither is an item that is not in the
    histogram. *)
Theorem C5_release_iff_above_rho (rho gamma : Q) (max_contrib : Z)
  (df : list (row (Item := Item))) :
  exists h,
    build_histogram hash_str entropy gamma max_contrib df = Ok h /\
    released_items hash_str entropy laplace rho gamma max_contrib df =
      Ok (release laplace rho h) /\
    NoDup (keys h) /\
    (forall item,
       In item (release laplace rho h) <->
       exists n, nth_error (keys h) n = Some item /\
                 rho < weight h item + laplace n) /\
    (forall item n,
       nth_error (keys h) n = Some item ->
       weight h item + laplace n == rho ->
       ~ In item (release laplace rho h)) /\
    (forall item, ~ In item (keys h) -> ~ In item (release laplace rho h)).
Proof.
  destruct (build_histogram_spec hash_str entropy gamma max_contrib df)
    as (h & E & ND & _).
  exists h. split; [exact E|]. split.
  { unfold released_items. rewrite E. reflexivity. }
  split; [exact ND|].
  pose proof (@release_spec _ _ laplace rho h ND) as R.
  split; [exact R|]. split.
  - intros item n En Q I. apply R in I. destruct I as (m & Em & L).
    assert (m = n).
    { apply (proj1 (NoDup_nth_error (keys h)) ND).
      - apply nth_error_Some. congruence.
      - congruence. }
    subst m. qlra.
  - intros item NI I. apply R in I. destruct I as (m & Em & _).
    apply NI. eapply nth_error_In, Em.
Qed.

End ReleaseClaim.

(** ** The claims the code does not meet *)

(** C2 (water-filling step), evaluated where the code departs from it.
    The histogram holds ["A"] at [13] and the user brings ["A"] and ["B"]:
    the candidates are ["A"] (cost [c = gamma - 13]) and ["B"] (cost
    [gamma]), and [k = 2].  The first iteration takes the saturation
    branch and brings ["A"] to [gamma], but ["B"], which is in the
    remaining set, receives no increment and keeps its recorded cost: the
    increment [cost_dict[curr_item]] is read again after the assignment
    for [j = idx] has set it to [0].  The second iteration takes the
    exhaustion branch with [idx = 1] and [k = 1]: [range(idx, k)] is
    empty, and the remaining budget is not handed out.  The allocation as
    the specification words it gives ["B"] the weight [1 - c]. *)
Theorem C2_remaining_items_not_raised :
  let gamma := gamma_default in
  let c := gamma - 13 in
  let h := [("A"%string, 13)] in
  let items := ["A"; "B"]%string in
  let st0 := alloc_init gamma items h in
  sorted_items_of st0 = items /\
  (exists st1,
     loop_body items 0 "A"%string st0 = Ok (st1, Continue) /\
     weight (st_histogram st1) "A"%string == gamma /\
     weight (st_histogram st1) "B"%string == 0 /\
     weight (st_cost_dict st1) "B"%string == gamma /\
     st_budget st1 == 1 - 2 * c /\ st_k st1 = 1%Z /\
     exists st2,
       loop_body items 1 "B"%string st1 = Ok (st2, Break) /\
       weight (st_histogram st2) "B"%string == 0) /\
  (exists h', allocate_user gamma items h = Ok h' /\
              weight h' "A"%string == gamma /\
              weight h' "B"%string == 0) /\
  (exists h', spec_allocate_user gamma items h = Ok h' /\
              weight h' "A"%string == gamma /\
              weight h' "B"%string == 1 - c) /\
  (exists h', build_histogram (fun x => x) (fun _ => 0%Z) gamma 2
                df_fourteen = Ok h' /\
              weight h' "A"%string == gamma /\
              weight h' "B"%string == 0).
Proof.
  cbv zeta. split; [vm_compute; reflexivity|].
  split; [|split; [|split]].
  - eexists. split; [vm_compute; reflexivity|].
    do 4 (split; [vm_compute; reflexivity|]). split; [reflexivity|].
    eexists. split; vm_compute; reflexivity.
  - eexists. split; [vm_compute; reflexivity|]. split; vm_compute; reflexivity.
  - eexists. split; [vm_compute; reflexivity|]. split; vm_compute; reflexivity.
  - eexists. split; [vm_compute; reflexivity|]. split; vm_compute; reflexivity.
Qed.

Section GroupOrder.

Context {Item : Type}.
Variable hash_str : Z -> Z.

Lemma insert_key_in (u x : Z) (l : list Z) :
  In x (insert_key u l) -> x = u \/ In x l.
Proof.
  induction l as [|v t IH]; simpl; [intuition auto|].
  destruct (u <? v)%Z; [simpl; intuition auto|].
  destruct (u =? v)%Z; [simpl; intuition auto|].
  simpl. intros [E|I]; [auto | apply IH in I; intuition auto].
Qed.

Lemma insert_key_sorted (u : Z) (l : list Z) :
  StronglySorted Z.lt l -> StronglySorted Z.lt (insert_key u l).
Proof.
  induction l as [|v t IH]; simpl; intros S; [repeat constructor|].
  inversion S as [|? ? S' F]; subst. rewrite Forall_forall in F.
  destruct (Z.ltb_spec u v) as [Lt|Ge].
  - constructor; [exact S|]. constructor; [exact Lt|].
    rewrite Forall_forall. intros x Ix. specialize (F x Ix). lia.
  - destruct (Z.eqb_spec u v) as [->|Ne]; [exact S|].
    constructor; [apply IH, S'|].
    rewrite Forall_forall. intros x Ix. apply insert_key_in in Ix.
    destruct Ix as [->|Ix]; [lia | apply F, Ix].
Qed.

(** The loop of line 65 visits the users in ascending order of their key,
    whatever the hash. *)
Lemma visit_order_by_key (df : list (row (Item := Item))) :
  StronglySorted Z.lt (visit_order hash_str df).
Proof.
  unfold visit_order, groupby. rewrite map_map. cbn [fst]. rewrite map_id.
  unfold group_keys.
  induction (map fst (sort_values_hash hash_str df)) as [|u l IH]; simpl;
    [constructor | apply insert_key_sorted, IH].
Qed.

End GroupOrder.

(** C7 (visiting order), evaluated where the code departs from it.  The
    frame is sorted on the hash column, but [groupby] then yields the
    groups in ascending order of the user key: with
    [hash(str(3)) < hash(str(2))] the frame sorted on the hash has user
    [3] first, and the loop still visits user [2] before user [3]. *)
Theorem C7_visit_order_by_key_not_by_hash :
  (hash_seed0 3 < hash_seed0 2)%Z /\
  map fst (sort_values_hash hash_seed0 df_two_users) = [3%Z; 2%Z] /\
  visit_order hash_seed0 df_two_users = [2%Z; 3%Z] /\
  ~ StronglySorted (fun u v => (hash_seed0 u <= hash_seed0 v)%Z)
      (visit_order hash_seed0 df_two_users).
Proof.
  split; [reflexivity|]. split; [reflexivity|]. split; [reflexivity|].
  intros S. change (visit_order hash_seed0 df_two_users) with [2%Z; 3%Z] in S.
  inversion S as [|? ? _ F]; subst. inversion F as [|? ? L _]; subst.
  vm_compute in L. apply L. reflexivity.
Qed.

Section JoinRows.

Context {Item : Type} `{EqDec Item}.

(** The rows of the join on the user key: every input row of a user who
    has at least one row in [dpsu_df]. *)
Lemma merge_on_key_rows (input_df dpsu_df : list (row (Item := Item))) r :
  In r (map fst (merge_on_key input_df dpsu_df)) <->
  In r input_df /\ exists d, In d dpsu_df /\ fst d = fst r.
Proof.
  unfold merge_on_key. rewrite in_map_iff. split.
  - intros ([l d] & <- & I). apply in_flat_map in I.
    destruct I as (l' & Il & I). apply in_map_iff in I.
    destruct I as (d' & E & Id). inversion E; subst l' d'.
    apply filter_In in Id. destruct Id as [Id Ek]. cbn [fst].
    split; [exact Il|]. exists d. split; [exact Id | lia].
  - intros (Ir & d & Id & E). exists (r, d). split; [reflexivity|].
    apply in_flat_map. exists r. split; [exact Ir|].
    apply in_map, filter_In. split; [exact Id | lia].
Qed.

End JoinRows.

(** C9 (rows of disclosed items), evaluated where the code departs from
    it.  One user contributes ["A"] and ["B"]; the noise lifts ["A"] above
    [rho] and leaves ["B"] below it, so the released list is [["A"]] and
    [policy_laplace] keeps the row of ["A"] alone.  [run_dpsu] then joins
    the input with that frame on the user key only, and returns both rows
    of the user, the row of the unreleased ["B"] included. *)
Theorem C9_output_has_rows_of_unreleased_items :
  let run := run_dpsu (fun x => x) (fun _ => 0%Z) noise_first
               rho_default gamma_default 2 df_one_user in
  released_items (fun x => x) (fun _ => 0%Z) noise_first
    rho_default gamma_default 2 df_one_user = Ok ["A"%string] /\
  policy_laplace (fun x => x) (fun _ => 0%Z) noise_first
    rho_default gamma_default 2 df_one_user = Ok [(1%Z, "A"%string)] /\
  run = Ok [(1%Z, "A"%string); (1%Z, "B"%string)] /\
  exists out, run = Ok out /\ In (1%Z, "B"%string) out /\
              ~ In "B"%string ["A"%string].
Proof.
  cbv zeta. split; [vm_compute; reflexivity|].
  split; [vm_compute; reflexivity|]. split; [vm_compute; reflexivity|].
  eexists. split; [vm_compute; reflexivity|]. split.
  - right. left. reflexivity.
  - intros [E|[]]. discriminate.
Qed.

(** ** The derivation of the parameters *)


Lemma py_range_cons (a b : Z) :
  (a < b)%Z -> py_range a b = a :: py_range (a + 1) b.
Proof.
  intros L. unfold py_range.
  replace (Z.to_nat (b - a)) with (S (Z.to_nat (b - (a + 1)))) by lia.
  cbn [seq map]. f_equal; [lia|].
  rewrite <- seq_shift, map_map. apply map_ext. intros n. lia.
Qed.

Lemma in_py_range (a b i : Z) : In i (py_range a b) -> (a <= i < b)%Z.
Proof.
  unfold py_range. rewrite in_map_iff. intros (n & <- & I).
  apply in_seq in I. lia.
Qed.

Section ParamFacts.

Import Params.

Variable libm_pow : float -> float -> float.
Variable libm_log : float -> float.





(** A valid triple on which line 55 raises: [1 - 2**-60] rounds to
    [1.0], so the divisor is [0.0]. *)
Lemma derive_params_tiny_delta :
  Params.valid_params 1%float 0x1p-60%float 1 /\
  derive_params libm_pow libm_log 1%float 0x1p-60%float 1 =
  Raise ZeroDivisionError.
Proof.
  split; [|vm_compute; reflexivity].
  unfold Params.valid_params. repeat split. discriminate.
Qed.

End ParamFacts.



(** ** The real values of [rho] and [gamma] *)

Section RealFormulaFacts.

Local Open Scope R_scope.

Lemma fold_left_Rmax_ge (l : list R) (x : R) : x <= fold_left Rmax l x.
Proof.
  revert x. induction l as [|y l IH]; intros x; cbn [fold_left]; [rlra|].
  apply Rle_trans with (Rmax x y); [apply Rmax_l | apply IH].
Qed.

(** For [eps > 0] and [0 < delta < 1] the real [gamma] is above [1], and
    above the real [rho]. *)
Lemma real_gamma_positive (eps delta : R) (max_contrib : Z) :
  0 < eps -> 0 < delta < 1 ->
  RealFormula.rho eps delta max_contrib <
    RealFormula.gamma eps delta max_contrib /\
  1 < RealFormula.gamma eps delta max_contrib.
Proof.
  intros E [D0 D1].
  assert (L : 0 < 1 / eps) by (apply Rdiv_lt_0_compat; rlra).
  unfold RealFormula.gamma. split; [rlra|].
  unfold RealFormula.rho.
  pose proof (fold_left_Rmax_ge
                (map (RealFormula.rho_term (1 / eps) delta)
                     (py_range 2 (max_contrib + 1)))
                (RealFormula.rho_term (1 / eps) delta 1)) as G.
  assert (T : RealFormula.rho_term (1 / eps) delta 1 =
              1 + 1 / eps * ln (1 / (2 * delta))).
  { unfold RealFormula.rho_term. replace (1 / 1) with 1 by field.
    rewrite Rpower_1 by rlra. replace (1 - (1 - delta)) with delta by ring.
    reflexivity. }
  rewrite T in G |- *.
  assert (H2 : Ropp 1 < ln (1 / (2 * delta))).
  { rewrite <- (ln_exp (Ropp 1)). apply ln_increasing; [apply exp_pos|].
    assert (X : exp (Ropp 1) < / 2).
    { rewrite exp_Ropp. apply Rinv_lt_contravar.
      - apply Rmult_lt_0_compat; [rlra | apply exp_pos].
      - pose proof (exp_ineq1 1 R1_neq_R0). rlra. }
    assert (Y : / 2 < 1 / (2 * delta)).
    { unfold Rdiv. rewrite Rmult_1_l. apply Rinv_lt_contravar.
      - apply Rmult_lt_0_compat; rlra.
      - rlra. }
    rlra. }
  assert (N : 0 < 1 / eps * (3 + ln (1 / (2 * delta))))
    by (apply Rmult_lt_0_compat; rlra).
  rlra.
Qed.

End RealFormulaFacts.

(** * Further properties of the code *)

(** ** [reservoir_sample] *)

Section ReservoirMore.

Context {A : Type}.
Variable entropy : nat -> Z.

Lemma reservoir_loop_short (max_contrib : Z) :
  forall (rest : list A) (i : Z) (reservoir : list A) (s : nat),
  (i + Z.of_nat (length rest) <= max_contrib)%Z ->
  reservoir_loop entropy max_contrib i rest reservoir s =
  Ok (reservoir ++ rest, s).
Proof.
  induction rest as [|item rest IH]; intros i reservoir s L;
    cbn [reservoir_loop].
  - rewrite app_nil_r. reflexivity.
  - cbn [length] in L. destruct (Z.ltb_spec i max_contrib) as [_|Ge]; [|lia].
    rewrite IH by lia. rewrite <- app_assoc. reflexivity.
Qed.

Lemma reservoir_loop_draws (max_contrib : Z) :
  forall (rest : list A) (i : Z) (reservoir : list A) (s : nat) out s',
  reservoir_loop entropy max_contrib i rest reservoir s = Ok (out, s') ->
  Z.of_nat s' =
  (Z.of_nat s +
   Z.max 0 (i + Z.of_nat (length rest) - Z.max i max_contrib))%Z.
Proof.
  induction rest as [|item rest IH]; intros i reservoir s out s' E;
    cbn [reservoir_loop] in E.
  - inversion E; subst. cbn [length]. lia.
  - cbn [length]. destruct (Z.ltb_spec i max_contrib) as [Lt|Ge].
    + apply IH in E. lia.
    + destruct (_ <? _)%Z.
      * apply bind_Ok in E. destruct E as (r' & _ & E). apply IH in E. lia.
      * apply IH in E. lia.
Qed.

(** X1.  [reservoir_sample] returns normally for every input and every
    [max_contrib], zero and negative values included (the slot assignment
    never raises [IndexError]): it returns [max(0, min(n, max_contrib))]
    items, all taken from the input, and it makes one random draw for each
    input item that is not in the result count, [n - len(result)] in
    all. *)
Theorem reservoir_sample_total (iterable : list A) (max_contrib : Z)
  (s : nat) :
  exists out s',
    reservoir_sample entropy iterable max_contrib s = Ok (out, s') /\
    Z.of_nat (length out) =
      Z.max 0 (Z.min (Z.of_nat (length iterable)) max_contrib) /\
    (forall x, In x out -> In x iterable) /\
    s' = (s + (length iterable - length out))%nat.
Proof.
  destruct (reservoir_sample_spec entropy iterable max_contrib s)
    as (out & s' & E & L & I).
  exists out, s'. split; [exact E|]. split; [exact L|]. split; [exact I|].
  unfold reservoir_sample in E. apply reservoir_loop_draws in E. lia.
Qed.

(** X2.  On an input of at most [max_contrib] items [reservoir_sample] is
    the identity: it returns the items in their order and makes no random
    draw. *)
Theorem reservoir_sample_short (iterable : list A) (max_contrib : Z)
  (s : nat) :
  (Z.of_nat (length iterable) <= max_contrib)%Z ->
  reservoir_sample entropy iterable max_contrib s = Ok (iterable, s).
Proof.
  intros L. unfold reservoir_sample.
  rewrite reservoir_loop_short by lia. reflexivity.
Qed.

End ReservoirMore.

Lemma reservoir_sample_short_witness :
  (Z.of_nat (length ["A"; "B"]%string) <= 2)%Z /\
  reservoir_sample (fun n => Z.of_nat n) ["A"; "B"]%string 2 0 =
  Ok (["A"; "B"]%string, 0%nat).
Proof.
  assert (L : (Z.of_nat (length ["A"; "B"]%string) <= 2)%Z)
    by (cbn [length]; lia).
  split; [exact L|].
  apply (reservoir_sample_short (fun n => Z.of_nat n) ["A"; "B"]%string 0 L).
Defined.

(** ** The per-user allocation *)

Lemma StronglySorted_in_impl {A : Type} (R R' : A -> A -> Prop) (l : list A) :
  (forall a b, In a l -> In b l -> R a b -> R' a b) ->
  StronglySorted R l -> StronglySorted R' l.
Proof.
  intros Im S. induction S as [|x l S IH F]; constructor.
  - apply IH. intros a b Ia Ib. apply Im; right; assumption.
  - rewrite Forall_forall in F |- *. intros y Iy.
    apply Im; [left; reflexivity | right; exact Iy | apply F, Iy].
Qed.

Section AllocationMore.

Context {Item : Type} `{EqDec Item}.

Implicit Types (h cd : dict (Item := Item)) (i r : Item).

Lemma build_costs_complete_gen gamma (items : list Item) : forall h cd h0 r,
  (forall j, weight h j = weight h0 j) ->
  In r (keys cd) \/ (In r items /\ weight h0 r < gamma) ->
  In r (keys (snd (fold_left (cost_step gamma) items (h, cd)))).
Proof.
  induction items as [|a items IH]; intros h cd h0 r W C; cbn [fold_left].
  - destruct C as [C|[[] _]]. exact C.
  - rewrite cost_step_eq. apply (IH _ _ h0).
    + intros j. rewrite weight_hist_read. apply W.
    + destruct C as [C|[[<-|Ir] L]].
      * left. destruct (Qltb (weight h a) gamma); [|exact C].
        apply in_keys_set. auto.
      * left. rewrite <- W in L. apply Qltb_lt in L. rewrite L.
        apply in_keys_set. auto.
      * right. auto.
Qed.

(** X3.  The candidates of a user are exactly the distinct items of the
    bounded list whose weight is below [gamma]; they are enumerated in
    ascending order of their headroom [gamma - weight], and [k] starts as
    their number. *)
Theorem candidates_of_user (gamma : Q) (items : list Item) h :
  let st0 := alloc_init gamma items h in
  let cands := sorted_items_of st0 in
  NoDup cands /\
  (forall r, In r cands <-> In r items /\ weight h r < gamma) /\
  StronglySorted (fun a b => gamma - weight h a <= gamma - weight h b) cands /\
  st_k st0 = Z.of_nat (length cands) /\
  st_budget st0 = 1.
Proof.
  intros st0 cands.
  destruct (build_costs_spec gamma items h) as (W & _ & _ & _ & Sub & ND & C).
  destruct (sorted_keys_spec _ ND) as (P & ND' & So).
  split; [exact ND'|]. split; [|split; [|split]].
  - intros r. split.
    + intros Ir. apply (Permutation_in _ P) in Ir.
      split; [apply Sub, Ir | apply (C r Ir)].
    + intros [Ir L]. apply (Permutation_in _ (Permutation_sym P)).
      apply (@build_costs_complete_gen gamma items h [] h r);
        [reflexivity | right; auto].
  - apply (StronglySorted_in_impl (R := cost_le (snd (build_costs gamma items h))));
      [|exact So].
    intros a b Ia Ib F. unfold cost_le in F.
    destruct (C a (Permutation_in _ P Ia)) as [Ea _].
    destruct (C b (Permutation_in _ P Ib)) as [Eb _].
    rewrite Ea, Eb in F. exact F.
  - unfold cands, sorted_items_of. cbn [st_k st_cost_dict st0 alloc_init].
    rewrite length_map. f_equal.
    apply Permutation_length, Permutation_sym, sorted_by_value_perm.
  - reflexivity.
Qed.

(** X4.  A user's step returns normally and leaves untouched every item
    the user does not bring and every item whose weight has already
    reached [gamma]: a saturated item is never raised again. *)
Theorem allocate_user_unchanged (gamma : Q) (items : list Item) h :
  exists h',
    allocate_user gamma items h = Ok h' /\
    forall i, ~ In i items \/ gamma <= weight h i ->
              weight h' i == weight h i.
Proof.
  pose proof (alloc_init_inv gamma items h) as Inv. cbv zeta in Inv.
  destruct (candidates_of_user gamma items h) as (_ & Cd & _).
  destruct (build_costs_spec gamma items h) as (W & _).
  destruct (water_fill_spec Inv) as (st' & E & _ & _ & _ & _ & U & _).
  unfold allocate_user. rewrite E. cbn [bind]. exists (st_histogram st').
  split; [reflexivity|]. intros i Ci.
  rewrite U.
  - cbn [st_histogram alloc_init]. rewrite W. reflexivity.
  - intros Ii. apply Cd in Ii. destruct Ii as [Ii L].
    destruct Ci as [Ci|Ci]; [contradiction | qlra].
Qed.

(** X5.  After a user's step the keys of the histogram are the keys it had
    together with the items of the user's bounded list, candidates or not
    (reading [histogram[item]] inserts the item), and they stay
    distinct. *)
Theorem allocate_user_keys (gamma : Q) (items : list Item) h :
  exists h',
    allocate_user gamma items h = Ok h' /\
    (forall i, In i (keys h') <-> In i items \/ In i (keys h)) /\
    (NoDup (keys h) -> NoDup (keys h')).
Proof.
  destruct (allocate_user_spec gamma items h) as (h' & E & _ & _ & _ & K & N).
  exists h'. auto.
Qed.

Lemma water_fill_item_bound gamma sorted_items : forall rest done idx st st',
  loop_inv gamma sorted_items done rest idx st ->
  water_fill sorted_items idx rest st = Ok st' ->
  forall i, weight (st_histogram st') i <=
            weight (st_histogram st) i + st_budget st.
Proof.
  induction rest as [|curr rest IH]; intros done idx st st' Inv E i;
    cbn [water_fill] in E.
  - inversion E; subst. pose proof (inv_budget Inv). qlra.
  - destruct (inv_head Inv curr (or_introl eq_refl)) as [_ P].
    assert (K : (1 <= st_k st)%Z) by (rewrite (inv_k Inv); simpl length; lia).
    pose proof (inv_budget Inv) as B.
    destruct (Qlt_le_dec (st_budget st)
                (weight (st_cost_dict st) curr * inject_Z (st_k st)))
      as [Lt|Le].
    + destruct (loop_body_break Inv Lt) as (h' & E' & W & _).
      rewrite E' in E. cbn [bind fst snd] in E. inversion E; subst st'.
      cbn [st_histogram]. rewrite W.
      pose proof (@share_nonneg _ _ B K) as D.
      assert (D1 : inject_Z 1 * (st_budget st / inject_Z (st_k st)) <=
                   st_budget st) by (apply share_le; [exact B | lia | exact K]).
      change (inject_Z 1) with 1 in D1.
      set (d := st_budget st / inject_Z (st_k st)) in *.
      destruct (in_dec _ _ _); qlra.
    + destruct (loop_body_continue Inv Le)
        as (st1 & E' & B1 & _ & W & _ & _ & Inv1).
      rewrite E' in E. cbn [bind fst snd] in E.
      pose proof (IH _ _ _ _ Inv1 E i) as G. rewrite W, B1 in G.
      pose proof (@scale_ge _ _ (Qlt_le_weak _ _ P) K) as Sc.
      destruct (idx <? st_k st)%Z; [destruct (eq_dec i curr)|]; qlra.
Qed.

(** X6.  A user's step raises the weight of any single item by at most
    [1]. *)
Theorem allocate_user_item_bound (gamma : Q) (items : list Item) h :
  exists h',
    allocate_user gamma items h = Ok h' /\
    forall i, weight h' i - weight h i <= 1.
Proof.
  pose proof (alloc_init_inv gamma items h) as Inv. cbv zeta in Inv.
  destruct (build_costs_spec gamma items h) as (W & _).
  destruct (water_fill_spec Inv) as (st' & E & _).
  pose proof (water_fill_item_bound Inv E) as G.
  unfold allocate_user. rewrite E. cbn [bind]. exists (st_histogram st').
  split; [reflexivity|]. intros i. specialize (G i).
  cbn [st_histogram st_budget alloc_init] in G. rewrite W in G. qlra.
Qed.

(** X7.  When the budget cannot saturate even the cheapest candidate (its
    headroom times the number [k] of candidates exceeds [1]), the step
    spends the whole budget evenly: each of the [k] candidates is raised
    by exactly [1/k], nothing else changes, and the total weight grows by
    exactly [1]. *)
Theorem allocate_user_even_split (gamma : Q) (items : list Item) h :
  let st0 := alloc_init gamma items h in
  let cands := sorted_items_of st0 in
  cands <> [] ->
  (forall r, In r cands -> 1 < (gamma - weight h r) * inject_Z (st_k st0)) ->
  exists h',
    allocate_user gamma items h = Ok h' /\
    (forall i, weight h' i ==
               weight h i + (if in_dec eq_dec i cands
                             then 1 / inject_Z (st_k st0) else 0)) /\
    hist_total h' == hist_total h + 1.
Proof.
  intros st0 cands NE Hc.
  pose proof (alloc_init_inv gamma items h) as Inv. cbv zeta in Inv.
  destruct (build_costs_spec gamma items h) as (W & T & _ & _ & _ & ND & C).
  destruct (sorted_keys_spec _ ND) as (P & _ & _).
  destruct (candidates_of_user gamma items h) as (_ & _ & _ & K & _).
  unfold allocate_user. cbv zeta. subst cands st0.
  set (st0 := alloc_init gamma items h) in *.
  remember (sorted_items_of st0) as cands eqn:Ec.
  destruct cands as [|c rest]; [contradiction|].
  assert (Lt : st_budget st0 <
               weight (st_cost_dict st0) c * inject_Z (st_k st0)).
  { assert (Ic : In c (keys (snd (build_costs gamma items h)))).
    { apply (Permutation_in _ P). change (In c (sorted_items_of st0)).
      rewrite <- Ec. left. reflexivity. }
    destruct (C c Ic) as [Ecost _].
    change (st_cost_dict st0) with (snd (build_costs gamma items h)).
    rewrite Ecost. apply Hc. left. reflexivity. }
  destruct (loop_body_break Inv Lt) as (h' & E & Wt & Tt & _).
  cbn [water_fill]. rewrite E. cbn [bind fst snd st_histogram].
  exists h'. split; [reflexivity|].
  assert (Tch : touched 0 (c :: rest) st0 = c :: rest).
  { unfold touched. rewrite K, Z.sub_0_r, Nat2Z.id. apply firstn_all. }
  rewrite Tch in Wt, Tt.
  assert (K1 : ~ inject_Z (st_k st0) == 0).
  { rewrite K. intros Q0. unfold Qeq, inject_Z in Q0. cbn [Qnum Qden] in Q0.
    cbn [length] in Q0. lia. }
  split.
  - intros i. rewrite Wt. change (st_histogram st0) with
      (fst (build_costs gamma items h)). rewrite W.
    change (st_budget st0) with 1. reflexivity.
  - rewrite Tt. change (st_histogram st0) with
      (fst (build_costs gamma items h)). rewrite T.
    change (st_budget st0) with 1. rewrite <- K. field. exact K1.
Qed.

End AllocationMore.

Lemma allocate_user_even_split_witness :
  exists h',
    allocate_user gamma_default ["A"; "B"]%string [] = Ok h' /\
    hist_total h' == hist_total (Item := String.string) [] + 1.
Proof.
  assert (NE : sorted_items_of
                 (alloc_init gamma_default ["A"; "B"]%string []) <> [])
    by (vm_compute; discriminate).
  assert (Hc : forall r,
    In r (sorted_items_of (alloc_init gamma_default ["A"; "B"]%string [])) ->
    1 < (gamma_default - weight [] r) *
        inject_Z (st_k (alloc_init gamma_default ["A"; "B"]%string []))).
  { intros r Ir. vm_compute in Ir.
    destruct Ir as [<-|[<-|[]]]; vm_compute; reflexivity. }
  destruct (@allocate_user_even_split String.string _ gamma_default
              ["A"; "B"]%string [] NE Hc) as (h' & E & _ & T).
  exists h'. split; [exact E | exact T].
Defined.

(** ** The frame, the loop over the users and the release *)

Section FrameFacts.

Context {Item : Type} `{EqDec Item}.
Variable hash_str : Z -> Z.

Implicit Types (df : list (row (Item := Item))) (h : dict (Item := Item)).

Lemma insert_by_hash_perm (r : row) df :
  Permutation (insert_by_hash hash_str r df) (r :: df).
Proof.
  induction df as [|y t IH]; cbn [insert_by_hash]; [reflexivity|].
  destruct (_ <? _)%Z; [|reflexivity].
  rewrite IH. apply perm_swap.
Qed.

Lemma sort_values_hash_perm df : Permutation (sort_values_hash hash_str df) df.
Proof.
  induction df as [|r t IH]; cbn [sort_values_hash fold_right]; [reflexivity|].
  fold (sort_values_hash hash_str t).
  rewrite insert_by_hash_perm. constructor. exact IH.
Qed.

Lemma isin_In (x : Item) (items : list Item) :
  isin x items = true <-> In x items.
Proof.
  unfold isin. rewrite existsb_exists. split.
  - intros (y & Iy & E). destruct (eq_dec x y) as [->|]; [exact Iy | discriminate].
  - intros I. exists x. split; [exact I|].
    destruct (eq_dec x x); [reflexivity | contradiction].
Qed.

Lemma in_insert_key (u x : Z) (l : list Z) :
  x = u \/ In x l -> In x (insert_key u l).
Proof.
  induction l as [|v t IH]; cbn [insert_key]; [simpl; intuition auto|].
  destruct (Z.ltb_spec u v); [simpl; intuition auto|].
  destruct (Z.eqb_spec u v) as [->|]; [simpl; intuition auto|].
  simpl. intros [E|[E|I]]; auto.
Qed.

Lemma in_group_keys df (u : Z) : In u (group_keys df) <-> In u (map fst df).
Proof.
  unfold group_keys. induction (map fst df) as [|v l IH];
    cbn [fold_right]; [tauto|].
  split.
  - intros I. apply insert_key_in in I; [|exact hash_str].
    destruct I as [->|I]; [left; reflexivity | right; apply IH, I].
  - intros [->|I]; apply in_insert_key; [left; reflexivity|].
    right. apply IH, I.
Qed.

Lemma in_groupby_items df (g : list Item) (i : Item) :
  In g (map snd (groupby df)) -> In i g -> exists u, In (u, i) df.
Proof.
  unfold groupby. rewrite map_map. cbn [snd]. rewrite in_map_iff.
  intros (u & <- & _) Ii. apply in_map_iff in Ii.
  destruct Ii as ([u' i'] & E & Ir). cbn [snd] in E. subst i'.
  apply filter_In in Ir. exists u'. apply Ir.
Qed.

(** X8.  The loop over the users visits every user key of the table
    exactly once, none skipped and none repeated; the keys come in
    ascending order, whatever the hash column says. *)
Theorem every_user_visited_once df :
  (forall u, In u (visit_order hash_str df) <-> In u (map fst df)) /\
  NoDup (visit_order hash_str df) /\
  StronglySorted Z.lt (visit_order hash_str df).
Proof.
  pose proof (visit_order_by_key hash_str df) as S.
  split; [|split; [|exact S]].
  - intros u. unfold visit_order, groupby. rewrite map_map. cbn [fst].
    rewrite map_id, in_group_keys. unfold row.
    split; apply Permutation_in; apply Permutation_map;
      [|apply Permutation_sym]; apply sort_values_hash_perm.
  - clear - S. induction S as [|x l S IH F]; constructor; [|exact IH].
    intros I. rewrite Forall_forall in F. specialize (F x I). lia.
Qed.

End FrameFacts.

Section MechanismMore.

Context {Item : Type} `{EqDec Item}.
Variable hash_str : Z -> Z.
Variable entropy : nat -> Z.
Variable laplace : nat -> Q.

Implicit Types (df : list (row (Item := Item))) (h : dict (Item := Item))
  (i item : Item).

Lemma user_step_more gamma max_contrib (st : dict * nat) (group : list Item) :
  exists st',
    user_step entropy gamma max_contrib st group = Ok st' /\
    hist_total (fst st') <= hist_total (fst st) + 1 /\
    (forall i, In i (keys (fst st')) -> In i group \/ In i (keys (fst st))).
Proof.
  unfold user_step.
  destruct (bound_contrib_spec entropy group max_contrib (snd st))
    as (out & s' & E & Sub).
  rewrite E. cbn [bind fst snd].
  destruct (allocate_user_spec gamma out (fst st))
    as (h' & E' & T & _ & _ & K & _).
  rewrite E'. cbn [bind]. eexists. split; [reflexivity|]. cbn [fst].
  split; [exact T|]. intros i Ii. apply K in Ii.
  destruct Ii as [Ii|Ii]; auto.
Qed.

Lemma process_groups_more gamma max_contrib :
  forall (groups : list (list Item)) (st : dict * nat),
  exists st',
    process_groups entropy gamma max_contrib groups st = Ok st' /\
    hist_total (fst st') <=
      hist_total (fst st) + inject_Z (Z.of_nat (length groups)) /\
    (forall i, In i (keys (fst st')) ->
               (exists g, In g groups /\ In i g) \/ In i (keys (fst st))).
Proof.
  induction groups as [|group groups IH]; intros st; cbn [process_groups].
  - exists st. split; [reflexivity|]. split; [|auto].
    cbn [length]. change (inject_Z (Z.of_nat 0)) with 0. qlra.
  - destruct (user_step_more gamma max_contrib st group)
      as (st1 & E1 & T1 & K1).
    rewrite E1. cbn [bind].
    destruct (IH st1) as (st' & E & T & K).
    exists st'. split; [exact E|]. split.
    + cbn [length]. rewrite Nat2Z.inj_succ, <- Z.add_1_r, inject_Z_plus.
      change (inject_Z 1) with 1. qlra.
    + intros i Ii. apply K in Ii. destruct Ii as [(g & Ig & Ii)|Ii].
      * left. exists g. split; [right; exact Ig | exact Ii].
      * apply K1 in Ii. destruct Ii as [Ii|Ii]; [|auto].
        left. exists group. split; [left; reflexivity | exact Ii].
Qed.

(** X9.  For every table and every parameter the histogram is built
    without an exception; before noise its keys are distinct items of the
    table, every weight is non-negative, and the total weight is at most
    the number of users. *)
Theorem histogram_before_noise (gamma : Q) (max_contrib : Z) df :
  exists h,
    build_histogram hash_str entropy gamma max_contrib df = Ok h /\
    NoDup (keys h) /\
    (forall i, In i (keys h) -> exists u, In (u, i) df) /\
    (forall i, 0 <= weight h i) /\
    hist_total h <=
      inject_Z (Z.of_nat (length (visit_order hash_str df))).
Proof.
  destruct (build_histogram_spec hash_str entropy gamma max_contrib df)
    as (h & E & ND & P & _).
  exists h. split; [exact E|]. split; [exact ND|].
  unfold build_histogram in E.
  destruct (process_groups_more gamma max_contrib
              (map snd (groupby (sort_values_hash hash_str df)))
              ([], 0%nat)) as (st' & E' & T & K).
  rewrite E' in E. cbn [bind] in E. inversion E; subst h.
  split; [|split; [exact P|]].
  - intros i Ii. apply K in Ii. destruct Ii as [(g & Ig & Ii)|[]].
    destruct (in_groupby_items _ _ i Ig Ii) as [u Iu].
    exists u. apply (Permutation_in _ (sort_values_hash_perm hash_str df)), Iu.
  - unfold visit_order. rewrite length_map in T |- *.
    cbn [fst hist_total] in T. qlra.
Qed.

Lemma release_loop_filter rho : forall (ks : list Item) n h items,
  NoDup ks ->
  snd (release_loop laplace rho n ks h items) =
  items ++
  map fst (filter (fun p => Qltb rho (weight h (fst p) + laplace (snd p)))
             (combine ks (seq n (length ks)))).
Proof.
  induction ks as [|k ks IH]; intros n h items ND; cbn [release_loop].
  - cbn. rewrite app_nil_r. reflexivity.
  - inversion ND as [|? ? NI ND']; subst.
    set (h1 := hist_add h k (laplace n)).
    pose proof (hist_read_fst h1 k) as F.
    destruct (hist_read h1 k) as [w h2] eqn:R. cbn [fst] in F.
    assert (W2 : forall j, j <> k -> weight h2 j = weight h j).
    { intros j N. replace h2 with (snd (hist_read h1 k))
        by (rewrite R; reflexivity).
      rewrite weight_hist_read. unfold h1. apply weight_add_neq, N. }
    rewrite (IH (S n) h2 _ ND'). subst w. unfold h1 at 1.
    rewrite weight_add_eq. cbn [length seq combine filter fst snd].
    rewrite (filter_ext_in
               (fun p => Qltb rho (weight h2 (fst p) + laplace (snd p)))
               (fun p => Qltb rho (weight h (fst p) + laplace (snd p)))).
    + destruct (Qltb rho (weight h k + laplace n)); cbn [map fst];
        [rewrite <- app_assoc|]; reflexivity.
    + intros [j m] Ij. cbn [fst snd]. apply in_combine_l in Ij.
      rewrite W2; [reflexivity|]. intros ->. contradiction.
Qed.

Lemma nodup_filter_combine (f : Item * nat -> bool) :
  forall (ks : list Item) (l : list nat),
  NoDup ks -> NoDup (map fst (filter f (combine ks l))).
Proof.
  induction ks as [|k ks IH]; intros [|x l] ND; cbn [combine filter map];
    try constructor.
  inversion ND as [|? ? NI ND']; subst.
  destruct (f (k, x)); cbn [map fst]; [|apply IH, ND'].
  constructor; [|apply IH, ND'].
  intros I. apply NI. apply in_map_iff in I.
  destruct I as ([j m] & E & I). cbn [fst] in E. subst j.
  apply filter_In in I. destruct I as [I _]. apply in_combine_l in I. exact I.
Qed.

(** X11.  The release loop keeps the keys of the histogram that pass the
    threshold, in the order of the keys: the released list is the list of
    keys, the [n]-th one paired with the [n]-th noise sample, filtered by
    [rho < weight + noise].  It has no duplicate. *)
Theorem release_is_filter (rho : Q) h :
  NoDup (keys h) ->
  release laplace rho h =
    map fst (filter (fun p => Qltb rho (weight h (fst p) + laplace (snd p)))
               (combine (keys h) (seq 0 (length (keys h))))) /\
  NoDup (release laplace rho h) /\
  incl (release laplace rho h) (keys h).
Proof.
  intros ND. unfold release.
  rewrite (release_loop_filter rho 0 h [] ND). cbn [app].
  split; [reflexivity|]. split; [apply nodup_filter_combine, ND|].
  intros x I. apply in_map_iff in I. destruct I as ([j m] & E & I).
  cbn [fst] in E. subst j. apply filter_In in I. destruct I as [I _].
  apply in_combine_l in I. exact I.
Qed.

(** X12.  Only items of the table can be released, and each at most
    once. *)
Theorem released_items_from_table (rho gamma : Q) (max_contrib : Z) df :
  exists items,
    released_items hash_str entropy laplace rho gamma max_contrib df =
      Ok items /\
    NoDup items /\
    forall item, In item items -> exists u, In (u, item) df.
Proof.
  destruct (histogram_before_noise gamma max_contrib df)
    as (h & E & ND & K & _).
  unfold released_items. rewrite E. cbn [bind].
  destruct (@release_is_filter rho h ND) as (_ & N & I).
  eexists. split; [reflexivity|]. split; [exact N|].
  intros item Ii. apply K, I, Ii.
Qed.

(** X13.  Line 105.  When lines 59-106 of [policy_laplace] return a frame,
    its rows are exactly the rows of the table whose item is in the
    released list of that run; the released list has no duplicate. *)
Theorem policy_laplace_rows (rho gamma : Q) (max_contrib : Z) df out :
  policy_laplace hash_str entropy laplace rho gamma max_contrib df = Ok out ->
  exists items,
    released_items hash_str entropy laplace rho gamma max_contrib df =
      Ok items /\
    NoDup items /\
    out = filter (fun r => isin (snd r) items) (sort_values_hash hash_str df) /\
    forall r, In r out <-> In r df /\ In (snd r) items.
Proof.
  intros E.
  destruct (released_items_from_table rho gamma max_contrib df)
    as (items & Ei & ND & _).
  unfold policy_laplace in E. rewrite Ei in E. cbn [bind] in E.
  inversion E as [Eo]. exists items.
  split; [exact Ei|]. split; [exact ND|]. split; [reflexivity|].
  intros r. rewrite filter_In, isin_In.
  split; intros [I J]; (split; [|exact J]);
    revert I; apply Permutation_in;
    [|apply Permutation_sym]; apply sort_values_hash_perm.
Qed.

(** X14.  Lines 113-114.  When [run_dpsu] returns a frame for the table
    [df] that [preprocess_df_from_query] gave it, the rows of that frame
    are the rows of [df] whose user key is the key of a row that
    [policy_laplace] returned: the merge compares the keys and not the
    items. *)
Theorem run_dpsu_rows (rho gamma : Q) (max_contrib : Z) df out :
  run_dpsu hash_str entropy laplace rho gamma max_contrib df = Ok out ->
  exists dpsu,
    policy_laplace hash_str entropy laplace rho gamma max_contrib df =
      Ok dpsu /\
    out = map fst (merge_on_key df dpsu) /\
    forall r, In r out <->
              In r df /\ exists d, In d dpsu /\ fst d = fst r.
Proof.
  intros E. unfold run_dpsu in E.
  destruct (policy_laplace hash_str entropy laplace rho gamma max_contrib df)
    as [dpsu|e] eqn:Ep; cbn [bind] in E; [|discriminate].
  inversion E as [Eo]. exists dpsu.
  split; [reflexivity|]. split; [reflexivity|].
  intros r. apply merge_on_key_rows.
Qed.

End MechanismMore.

Lemma policy_laplace_rows_witness :
  policy_laplace (fun x => x) (fun _ => 0%Z) noise_first
    rho_default gamma_default 2 df_one_user = Ok [(1%Z, "A"%string)] /\
  exists items,
    released_items (fun x => x) (fun _ => 0%Z) noise_first
      rho_default gamma_default 2 df_one_user = Ok items /\
    forall r, In r [(1%Z, "A"%string)] <->
              In r df_one_user /\ In (snd r) items.
Proof.
  assert (E : policy_laplace (fun x => x) (fun _ => 0%Z) noise_first
                rho_default gamma_default 2 df_one_user =
              Ok [(1%Z, "A"%string)]) by (vm_compute; reflexivity).
  split; [exact E|].
  destruct (@policy_laplace_rows String.string _ (fun x => x)
              (fun _ => 0%Z) noise_first rho_default gamma_default 2
              df_one_user [(1%Z, "A"%string)] E)
    as (items & Ei & _ & _ & R).
  exists items. split; [exact Ei | exact R].
Defined.

Lemma run_dpsu_rows_witness :
  run_dpsu (fun x => x) (fun _ => 0%Z) noise_first
    rho_default gamma_default 2 df_one_user =
    Ok [(1%Z, "A"%string); (1%Z, "B"%string)] /\
  exists dpsu,
    policy_laplace (fun x => x) (fun _ => 0%Z) noise_first
      rho_default gamma_default 2 df_one_user = Ok dpsu /\
    forall r, In r [(1%Z, "A"%string); (1%Z, "B"%string)] <->
              In r df_one_user /\ exists d, In d dpsu /\ fst d = fst r.
Proof.
  assert (E : run_dpsu (fun x => x) (fun _ => 0%Z) noise_first
                rho_default gamma_default 2 df_one_user =
              Ok [(1%Z, "A"%string); (1%Z, "B"%string)])
    by (vm_compute; reflexivity).
  split; [exact E|].
  destruct (@run_dpsu_rows String.string _ (fun x => x)
              (fun _ => 0%Z) noise_first rho_default gamma_default 2
              df_one_user _ E)
    as (dpsu & Ep & _ & R).
  exists dpsu. split; [exact Ep | exact R].
Defined.

Lemma release_is_filter_witness :
  NoDup (keys [("A"%string, 1 # 2); ("B"%string, 1 # 2)]) /\
  release noise_first rho_default
    [("A"%string, 1 # 2); ("B"%string, 1 # 2)] = ["A"%string].
Proof.
  assert (ND : NoDup (keys [("A"%string, 1 # 2); ("B"%string, 1 # 2)])).
  { repeat constructor; simpl; intuition discriminate. }
  split; [exact ND|].
  rewrite (proj1 (@release_is_filter String.string _ noise_first
                    rho_default _ ND)).
  vm_compute. reflexivity.
Defined.

(** ** One iteration of the allocation loop *)

Section IterationMore.

Context {Item : Type} `{EqDec Item}.

Implicit Types (h : dict (Item := Item)) (i curr : Item)
  (st : alloc_state (Item := Item)).

(** X15.  An iteration that takes the saturation branch, in any state the
    loop can be in: it returns normally, lowers [budget] by [cost] and [k]
    by [1], and changes the weight of no item but the current one, which
    it brings exactly to [gamma] when [idx < k] and leaves as it is when
    [range(idx, k)] is empty. *)
Theorem saturation_iteration (gamma : Q) (items : list Item) h
  (idx : Z) curr (rest : list Item) st :
  let st0 := alloc_init gamma items h in
  reaches (sorted_items_of st0) st0 idx (curr :: rest) st ->
  weight (st_cost_dict st) curr * inject_Z (st_k st) <= st_budget st ->
  exists st',
    loop_body (sorted_items_of st0) idx curr st = Ok (st', Continue) /\
    st_budget st' ==
      st_budget st - weight (st_cost_dict st) curr * inject_Z (st_k st) /\
    st_k st' = (st_k st - 1)%Z /\
    (forall i, i <> curr ->
               weight (st_histogram st') i == weight (st_histogram st) i) /\
    ((idx < st_k st)%Z -> weight (st_histogram st') curr == gamma) /\
    ((st_k st <= idx)%Z ->
     weight (st_histogram st') curr == weight (st_histogram st) curr).
Proof.
  intros st0 R Le.
  destruct (reaches_inv (alloc_init_inv gamma items h) R) as [done Inv].
  destruct (inv_head Inv curr (or_introl eq_refl)) as [G _].
  destruct (loop_body_continue Inv Le) as (st' & E & B & K & W & _).
  exists st'. split; [exact E|]. split; [exact B|]. split; [exact K|].
  split; [|split].
  - intros i N. rewrite W.
    destruct (idx <? st_k st)%Z; [destruct (eq_dec i curr)|];
      [contradiction | qlra | qlra].
  - intros L. rewrite W. destruct (Z.ltb_spec idx (st_k st)); [|lia].
    destruct (eq_dec curr curr); [qlra | contradiction].
  - intros L. rewrite W. destruct (Z.ltb_spec idx (st_k st)); [lia | qlra].
Qed.

(** X16.  An iteration that takes the exhaustion branch, in any state the
    loop can be in: it returns normally and ends the loop; [k] is at least
    [1], each item at the positions [idx .. k-1] of the sorted candidates
    is raised by [budget / k] and stays strictly below [gamma], and no
    other weight changes. *)
Theorem exhaustion_iteration (gamma : Q) (items : list Item) h
  (idx : Z) curr (rest : list Item) st :
  let st0 := alloc_init gamma items h in
  reaches (sorted_items_of st0) st0 idx (curr :: rest) st ->
  st_budget st < weight (st_cost_dict st) curr * inject_Z (st_k st) ->
  exists h',
    loop_body (sorted_items_of st0) idx curr st =
      Ok (mk_alloc h' (st_cost_dict st) (st_budget st) (st_k st), Break) /\
    (1 <= st_k st)%Z /\
    (forall i, In i (touched idx (curr :: rest) st) ->
       weight h' i ==
         weight (st_histogram st) i + st_budget st / inject_Z (st_k st) /\
       weight h' i < gamma) /\
    (forall i, ~ In i (touched idx (curr :: rest) st) ->
       weight h' i == weight (st_histogram st) i).
Proof.
  intros st0 R Lt.
  destruct (reaches_inv (alloc_init_inv gamma items h) R) as [done Inv].
  assert (K : (1 <= st_k st)%Z) by (rewrite (inv_k Inv); simpl length; lia).
  destruct (loop_body_break Inv Lt) as (h' & E & W & _).
  exists h'. split; [exact E|]. split; [exact K|]. split.
  - intros i Ii. assert (Ir : In i (curr :: rest))
      by (apply firstn_In in Ii; exact Ii).
    destruct (inv_head Inv i Ir) as [Gi Pi].
    assert (Ci : weight (st_cost_dict st) curr <= weight (st_cost_dict st) i).
    { destruct Ir as [<-|Ir]; [qlra|].
      pose proof (inv_sorted Inv) as So.
      apply StronglySorted_inv in So. destruct So as [_ F].
      rewrite Forall_forall in F. apply (F i Ir). }
    pose proof (@share_lt _ _ _ K Lt) as D.
    rewrite W. destruct (in_dec eq_dec i (touched idx (curr :: rest) st));
      [|contradiction].
    set (d := st_budget st / inject_Z (st_k st)) in *. split; qlra.
  - intros i Ni. rewrite W.
    destruct (in_dec eq_dec i (touched idx (curr :: rest) st));
      [contradiction | qlra].
Qed.

End IterationMore.

Lemma saturation_iteration_witness :
  exists st',
    loop_body [1; 2; 3]%nat 0 1%nat (alloc_init (1 # 4) [1; 2; 3]%nat []) =
      Ok (st', Continue) /\
    weight (st_histogram st') 1%nat == 1 # 4.
Proof.
  destruct (@saturation_iteration nat _ (1 # 4) [1; 2; 3]%nat [] 0 1%nat
              [2; 3]%nat (alloc_init (1 # 4) [1; 2; 3]%nat []))
    as (st' & E & _ & _ & _ & G & _).
  - apply reaches_first.
  - vm_compute. discriminate.
  - exists st'. split; [exact E|]. apply G. vm_compute. reflexivity.
Defined.

Lemma exhaustion_iteration_witness :
  exists h',
    loop_body ["A"; "B"]%string 0 "A"%string
      (alloc_init gamma_default ["A"; "B"]%string []) =
      Ok (mk_alloc h'
            (st_cost_dict (alloc_init gamma_default ["A"; "B"]%string []))
            1 2, Break) /\
    weight h' "B"%string < gamma_default.
Proof.
  destruct (@exhaustion_iteration String.string _ gamma_default
              ["A"; "B"]%string [] 0 "A"%string ["B"%string]
              (alloc_init gamma_default ["A"; "B"]%string []))
    as (h' & E & _ & T & _).
  - apply reaches_first.
  - vm_compute. reflexivity.
  - exists h'. split; [exact E|]. apply T. right. left. reflexivity.
Defined.
